(** * giza-cli, examples/mnist/mnist_pytorch.ipynb: the FP16x16 input helpers

    The notebook cell that prepares [input.cairo] defines three functions,

      def to_fixed_point(val, bits):
          return round(val * (2**bits))

      def mnist_image_to_fixed_point(data):
          return [to_fixed_point(val.item(), 16) for val in data]

      def generate_input_cairo(data):
          values = mnist_image_to_fixed_point(data)
          values = [f"FixedTrait::<FP16x16>::new({val}, {'true' if val < 0 else 'false'})" for val in values]
          return ",\n ".join(values)

    and then stores the text in a global and writes it to a file.  This
    development embeds the Python values the cell manipulates (binary64
    floats, unbounded ints, str), the built-ins it calls with the exceptions
    they raise, and the three functions in a state-and-exception monad over
    the interpreter's state: the globals, the file system, the file objects
    and the frames of the calls in progress.  Tensors belong to torch: the
    element type and its [item()] are parameters of the development,
    instantiated at the end for float64 and float32 tensors.  The functions
    are given twice.  First with the names they call standing for what the
    cell and the built-ins bind them to and with their locals as binders:
    the statements about the values they compute read on these.  Then as
    the interpreter calls them, each name looked up in the globals and each
    body run in a frame of its own: the statements about what a call reads
    and writes read on these. *)

From Stdlib Require Import ZArith List String Ascii Bool Lia QArith Qabs Qpower.
From Stdlib Require Import Decimal DecimalString DecimalPos DecimalZ.
From Stdlib Require Import Floats.SpecFloat.
Import ListNotations.

Local Open Scope Z_scope.

(** ** Python run-time model *)

Module Py.

(** The exceptions the cell can meet: those of [float] and [round], that of
    calling an object that is not callable, and that of [open], whose
    subclasses (FileNotFoundError, IsADirectoryError, ...) are not told
    apart. *)
Inductive exn : Type :=
| OverflowError
| ValueError
| TypeError
| OSError.

Inductive result (A : Type) : Type :=
| Ok (a : A)
| Raise (e : exn).
Arguments Ok {A} a.
Arguments Raise {A} e.

Definition rbind {A B : Type} (r : result A) (k : A -> result B) : result B :=
  match r with
  | Ok a => k a
  | Raise e => Raise e
  end.

(** A Python [float] is an IEEE 754 binary64 value. *)
Definition prec : Z := 53.
Definition emax : Z := 1024.
Definition float : Type := spec_float.

(** What [x * y] and [2**bits] can evaluate to: an [int] or a [float]. *)
Inductive num : Type :=
| Int (n : Z)
| Float (f : float).

(** Objects bound to names: numbers, strs, lists of ints and of strs, and
    file objects, which are references into [handles] below.  None of them
    is callable. *)
Inductive obj : Type :=
| ONum (n : num)
| OStr (s : string)
| OInts (l : list Z)
| OStrs (l : list string)
| OFile (handle : nat).

(** The state a statement of the cell can observe or change.  [globals]
    holds the module's variables other than the three functions of the cell
    and the built-ins: a function's name has an entry only once it has been
    rebound.  [files] maps the path of a regular file to its content and
    [dirs] lists the directories.  [handles] holds the file objects created
    so far, each with its path and whether it is closed.  [frames] holds the
    local namespaces of the calls in progress, innermost first; it is empty
    while module-level code runs. *)
Record World : Type := mkWorld {
  globals : list (string * obj);
  files : list (string * string);
  dirs : list string;
  handles : list (string * bool);
  frames : list (list (string * obj))
}.

Definition M (A : Type) : Type := World -> result A * World.

Definition ret {A : Type} (a : A) : M A := fun w => (Ok a, w).

Definition raise {A : Type} (e : exn) : M A := fun w => (Raise e, w).

Definition bind {A B : Type} (m : M A) (k : A -> M B) : M B :=
  fun w =>
    match m w with
    | (Ok a, w') => k a w'
    | (Raise e, w') => (Raise e, w')
    end.

(** A built-in that touches no state. *)
Definition lift {A : Type} (r : result A) : M A := fun w => (r, w).

(** [[f(x) for x in l]]: left to right, the first exception ends it. *)
Fixpoint comprehension {A B : Type} (f : A -> M B) (l : list A) : M (list B) :=
  match l with
  | [] => ret []
  | x :: rest =>
      bind (f x) (fun y =>
      bind (comprehension f rest) (fun ys =>
      ret (y :: ys)))
  end.

(** [name = value] at the top level of the cell. *)
Fixpoint assoc_set {V : Type} (k : string) (v : V) (l : list (string * V))
  : list (string * V) :=
  match l with
  | [] => [(k, v)]
  | (k', v') :: rest =>
      if String.eqb k k' then (k, v) :: rest else (k', v') :: assoc_set k v rest
  end.

Fixpoint assoc_get {V : Type} (k : string) (l : list (string * V)) : option V :=
  match l with
  | [] => None
  | (k', v') :: rest => if String.eqb k k' then Some v' else assoc_get k rest
  end.

(** [name = value]: in a function the name is bound in the namespace of
    the running call, at module level in the globals. *)
Definition store (name : string) (v : obj) : M unit :=
  fun w =>
    match frames w with
    | [] =>
        (Ok tt, mkWorld (assoc_set name v (globals w)) (files w) (dirs w) (handles w) [])
    | fr :: rest =>
        (Ok tt, mkWorld (globals w) (files w) (dirs w) (handles w)
                  (assoc_set name v fr :: rest))
    end.

(** A call of a Python function: the body runs in a namespace of its own,
    which is dropped when the call returns or raises. *)
Definition in_frame {A : Type} (body : M A) : M A :=
  fun w =>
    let (r, w') :=
      body (mkWorld (globals w) (files w) (dirs w) (handles w) ([] :: frames w)) in
    (r, mkWorld (globals w') (files w') (dirs w') (handles w') (tl (frames w'))).

(** Reading a name that the function does not assign: what the module's
    globals hold for it; [None] when the name has no entry there, and so
    still has the binding of the cell or of the built-ins. *)
Definition load_global (name : string) : M (option obj) :=
  fun w => (Ok (assoc_get name (globals w)), w).

(** Calling what was read: the function [f] itself when the name was not
    rebound; an object of [obj] is not callable. *)
Definition invoke {A : Type} (callee : option obj) (f : M A) : M A :=
  match callee with
  | None => f
  | Some _ => raise TypeError
  end.

(** *** Files *)

Fixpoint has_slash (s : string) : bool :=
  match s with
  | EmptyString => false
  | String c s' => Ascii.eqb c "/" || has_slash s'
  end.

(** The directory part of a path: what precedes its last slash. *)
Fixpoint dirname (path : string) : string :=
  match path with
  | EmptyString => EmptyString
  | String c rest => if has_slash rest then String c (dirname rest) else EmptyString
  end.

Definition is_dir (path : string) (w : World) : bool :=
  existsb (String.eqb path) (dirs w).

(** [open(path, "w")] can go through: the path is no directory and its
    directory part is the current directory or an existing directory.
    Permissions and the limits of the system are not modelled. *)
Definition openable (path : string) (w : World) : bool :=
  negb (is_dir path w)
  && (String.eqb (dirname path) EmptyString || is_dir (dirname path) w).

(** [open(path, "w")]: a new file object; the file is created or truncated.
    OSError when the file cannot be opened. *)
Definition open_w (path : string) : M nat :=
  fun w =>
    if openable path w then
      (Ok (List.length (handles w)),
       mkWorld (globals w) (assoc_set path EmptyString (files w)) (dirs w)
         (handles w ++ [(path, false)]) (frames w))
    else (Raise OSError, w).

(** [f.write(s)]: appends to the file of an open file object; ValueError on
    a closed one.  The count it returns is not used by the cell. *)
Definition write (f : nat) (s : string) : M unit :=
  fun w =>
    match nth_error (handles w) f with
    | Some (path, false) =>
        let old := match assoc_get path (files w) with
                   | Some c => c
                   | None => EmptyString
                   end in
        (Ok tt, mkWorld (globals w) (assoc_set path (old ++ s)%string (files w))
                  (dirs w) (handles w) (frames w))
    | _ => (Raise ValueError, w)
    end.

Fixpoint mark_closed (f : nat) (hs : list (string * bool)) : list (string * bool) :=
  match hs, f with
  | [], _ => []
  | (path, _) :: rest, O => (path, true) :: rest
  | h :: rest, S f' => h :: mark_closed f' rest
  end.

(** [f.close()]. *)
Definition close (f : nat) : M unit :=
  fun w =>
    (Ok tt, mkWorld (globals w) (files w) (dirs w) (mark_closed f (handles w)) (frames w)).

(** [with ... as f: body], once [f] is bound: the file object is closed
    when the body is left, by return or by exception. *)
Definition closing {A : Type} (f : nat) (body : M A) : M A :=
  fun w =>
    let (r, w1) := body w in
    (r, snd (close f w1)).

(** *** Built-ins on numbers *)

Definition float_mul (x y : float) : float := SFmul prec emax x y.

(** [float(n)] for an int [n]: correctly rounded, OverflowError ("int too
    large to convert to float") when the result does not fit. *)
Definition float_of_int (n : Z) : result float :=
  match binary_normalize prec emax n 0 false with
  | S754_infinity _ => Raise OverflowError
  | f => Ok f
  end.

(** [2**bits]: an int for [bits >= 0]; for a negative exponent Python
    converts both operands to float and returns the float power, which
    underflows silently to [0.0]. *)
Definition pow2 (bits : Z) : result num :=
  if 0 <=? bits then Ok (Int (2 ^ bits))
  else
    rbind (float_of_int bits) (fun _ =>
    Ok (Float (binary_normalize prec emax 1 bits false))).

(** [x * y] with a float on the left: an int on the right is converted. *)
Definition mul (x : float) (y : num) : result float :=
  match y with
  | Int n => rbind (float_of_int n) (fun f => Ok (float_mul x f))
  | Float f => Ok (float_mul x f)
  end.

(** Nearest integer to [m * 2^e], a tie going to the even neighbour. *)
Definition round_half_even (m : positive) (e : Z) : Z :=
  if 0 <=? e then Zpos m * 2 ^ e
  else
    let d := 2 ^ (- e) in
    let q := Zpos m / d in
    let r := Zpos m mod d in
    match 2 * r ?= d with
    | Lt => q
    | Gt => q + 1
    | Eq => if Z.even q then q else q + 1
    end.

(** [round(x)] with one argument: an int; ValueError on NaN,
    OverflowError on an infinity. *)
Definition round (x : float) : result Z :=
  match x with
  | S754_nan => Raise ValueError
  | S754_infinity _ => Raise OverflowError
  | S754_zero _ => Ok 0
  | S754_finite s m e => Ok (cond_Zopp s (round_half_even m e))
  end.

(** *** Built-ins on str *)

(** [str(n)], which is also what [{n}] yields in an f-string. *)
Definition str (n : Z) : string := NilZero.string_of_int (Z.to_int n).

(** [sep.join(l)]. *)
Definition join (sep : string) (l : list string) : string := String.concat sep l.

End Py.

Import Py.

Notation "x <- m ;; k" := (bind m (fun x => k))
  (at level 61, m at next level, right associativity).

(** *** Tensor elements

    [data] is a torch tensor and [val.item()] turns one of its elements into
    a Python float.  Two readings of an element are given: an element of a
    float64 tensor is the double itself; an element of a float32 tensor,
    which is what the notebook's loaders produce, is a binary32 value, given
    here in canonical form, and [item()] returns the double of the same
    value. *)
Definition item_float64 (val : float) : float := val.

Definition item_float32 (val : spec_float) : float :=
  match val with
  | S754_finite s m e => binary_normalize prec emax (cond_Zopp s (Zpos m)) e false
  | _ => val
  end.

(** ** The training cell

      train_losses = []
      train_counter = []

      def train(epoch):
        network.train()
        for batch_idx, (data, target) in enumerate(train_loader):
          optimizer.zero_grad()
          output = network(data)
          loss = F.nll_loss(output, target)
          loss.backward()
          optimizer.step()
          if batch_idx % log_interval == 0:
            print(...)
            train_losses.append(loss.item())
            train_counter.append(
              (batch_idx*64) + ((epoch-1)*len(train_loader.dataset)))

    The network, the optimizer, the loss and the loader are torch objects.
    They enter as an interface: what one pass over a batch does to the
    network and its optimizer, and the loss it yields.  The line that
    [print] writes is left to the interface as well. *)
Class Torch : Type := {
  learner : Type;
  batch : Type;
  loss : Type;
  (** [network.train()] *)
  network_train : learner -> learner;
  (** [zero_grad], the forward pass, [nll_loss], [backward] and [step] *)
  optimize : learner -> batch -> learner * loss;
  (** [loss.item()] *)
  loss_item : loss -> float;
  (** the formatted line: epoch, batch index, the batch, the two lengths
      and the loss *)
  progress_line : Z -> Z -> batch -> Z -> Z -> loss -> string
}.

(** The network and the three things the cell appends to: what was
    printed and the two global lists. *)
Record Training {T : Torch} : Type := mkTraining {
  network : learner;
  printed : list string;
  train_losses : list float;
  train_counter : list Z
}.
Arguments mkTraining {T} network printed train_losses train_counter.

Definition log_interval : Z := 10000.

(** The body of the [for] loop from index [batch_idx] on; [batches] is what
    is left of the enumeration of [train_loader], [dataset_len] is
    [len(train_loader.dataset)] and [loader_len] is [len(train_loader)]. *)
Fixpoint train_loop {T : Torch} (epoch dataset_len loader_len batch_idx : Z)
    (batches : list batch) (st : Training) : Training :=
  match batches with
  | [] => st
  | b :: rest =>
      let (net, l) := optimize (network st) b in
      let st' :=
        if batch_idx mod log_interval =? 0 then
          mkTraining net
            (printed st ++ [progress_line epoch batch_idx b dataset_len loader_len l])
            (train_losses st ++ [loss_item l])
            (train_counter st ++ [batch_idx * 64 + (epoch - 1) * dataset_len])
        else mkTraining net (printed st) (train_losses st) (train_counter st) in
      train_loop epoch dataset_len loader_len (batch_idx + 1) rest st'
  end.

(** [train(epoch)], with [loader] the batches this enumeration of
    [train_loader] yields. *)
Definition train {T : Torch} (dataset_len : Z) (loader : list batch) (epoch : Z)
    (st : Training) : Training :=
  train_loop epoch dataset_len (Z.of_nat (List.length loader)) 0 loader
    (mkTraining (network_train (network st))
       (printed st) (train_losses st) (train_counter st)).

(** [for i in range(10): train(i)]; the loader is shuffled, so each epoch
    has its own enumeration [loader i]. *)
Definition training_run {T : Torch} (dataset_len : Z) (loader : Z -> list batch)
    (st : Training) : Training :=
  fold_left (fun st i => train dataset_len (loader (Z.of_nat i)) (Z.of_nat i) st)
    (seq 0 10) st.

(** The indices at which an epoch over [n] batches logs, and the counter
    the cell records at index [i]. *)
Definition logged_indices (n : nat) : list Z :=
  filter (fun i => i mod log_interval =? 0) (map Z.of_nat (seq 0 n)).

Definition counter_at (dataset_len epoch i : Z) : Z :=
  i * 64 + (epoch - 1) * dataset_len.

(** The number of indices below [n] that are multiples of the interval. *)
Definition logged_count (n : nat) : nat :=
  Z.to_nat ((Z.of_nat n + (log_interval - 1)) / log_interval).

Section Cell.

(** The development is stated for any kind of element with its [item]. *)
Context {element : Type} (item : element -> float).

(** ** The cell's functions *)

Local Open Scope string_scope.

Definition to_fixed_point (val : float) (bits : Z) : M Z :=
  p <- lift (pow2 bits) ;;
  x <- lift (mul val p) ;;
  lift (round x).

Definition mnist_image_to_fixed_point (data : list element) : M (list Z) :=
  comprehension (fun val => to_fixed_point (item val) 16) data.

Definition literal (val : Z) : string :=
  "FixedTrait::<FP16x16>::new(" ++ str val ++ ", "
    ++ (if (val <? 0)%Z then "true" else "false") ++ ")".

Definition newline : ascii := ascii_of_nat 10.

Definition separator : string := String "," (String newline (String " " EmptyString)).

Definition generate_input_cairo (data : list element) : M string :=
  values <- mnist_image_to_fixed_point data ;;
  values <- comprehension (fun val => ret (literal val)) values ;;
  ret (join separator values).

(** The rest of the cell, run at top level once the functions are defined:

      input_cairo = generate_input_cairo(example_data[0])
      with open("mnist_cairo/src/input.cairo", "w") as f:
          f.write(<header>); f.write(input_cairo); f.write(<footer>)

    [row] is [example_data[0]]. *)
Definition input_path : string := "mnist_cairo/src/input.cairo".

Definition header : string :=
  String newline
  "use array::{SpanTrait, ArrayTrait};" ++ String newline
  "use orion::operators::tensor::{TensorTrait, FP16x16Tensor, Tensor};" ++ String newline
  "use orion::numbers::{FixedTrait, FP16x16};" ++ String newline
  "fn input() -> Tensor<FP16x16> {" ++ String newline
  "    TensorTrait::<FP16x16>::new(" ++ String newline
  "        array![196].span()," ++ String newline
  "        array![" ++ String newline
  "    ".

Definition footer : string :=
  String newline
  "        ].span()" ++ String newline
  "    )" ++ String newline
  "}" ++ String newline
  "    ".

Definition write_input_cairo (row : list element) : M unit :=
  input_cairo <- generate_input_cairo row ;;
  _ <- store "input_cairo" (OStr input_cairo) ;;
  f <- open_w input_path ;;
  _ <- store "f" (OFile f) ;;
  closing f (
    _ <- write f header ;;
    _ <- write f input_cairo ;;
    write f footer).

(** ** The functions as the interpreter calls them

    Above, the three functions are written with the names [round],
    [to_fixed_point] and [mnist_image_to_fixed_point] standing for what the
    cell and the built-ins bind them to, and with their local variables as
    binders.  Python looks a global name up each time the call is
    evaluated, and a function assigns its variables in the namespace of the
    running call.  Here the same bodies are written over the interpreter's
    state: each call reads its callee from the globals before the arguments
    are evaluated and fails with TypeError when the name was rebound to an
    object that is not callable; the body runs in a frame of its own, in
    which [generate_input_cairo] binds [values] twice.  Parameters and the
    variable of a comprehension stay binders: the bodies do not assign
    them. *)
Definition to_fixed_point_body (val : float) (bits : Z) : M Z :=
  callee <- load_global "round" ;;
  p <- lift (pow2 bits) ;;
  x <- lift (mul val p) ;;
  invoke callee (lift (round x)).

Definition call_to_fixed_point (val : float) (bits : Z) : M Z :=
  in_frame (to_fixed_point_body val bits).

Definition mnist_image_to_fixed_point_body (data : list element) : M (list Z) :=
  comprehension
    (fun val =>
       callee <- load_global "to_fixed_point" ;;
       invoke callee (call_to_fixed_point (item val) 16))
    data.

Definition call_mnist_image_to_fixed_point (data : list element) : M (list Z) :=
  in_frame (mnist_image_to_fixed_point_body data).

Definition generate_input_cairo_body (data : list element) : M string :=
  callee <- load_global "mnist_image_to_fixed_point" ;;
  values <- invoke callee (call_mnist_image_to_fixed_point data) ;;
  _ <- store "values" (OInts values) ;;
  values <- comprehension (fun val => ret (literal val)) values ;;
  _ <- store "values" (OStrs values) ;;
  ret (join separator values).

Definition call_generate_input_cairo (data : list element) : M string :=
  in_frame (generate_input_cairo_body data).

Local Close Scope string_scope.

(** ** Sample values *)

Definition empty_world : World := mkWorld [] [] [] [] [].

(** 0.5, 1.0, 1.5 and the smallest positive double. *)
Definition f_half : float := S754_finite false 4503599627370496 (-53).
Definition f_one : float := S754_finite false 4503599627370496 (-52).
Definition f_one_half : float := S754_finite false 6755399441055744 (-52).
Definition f_tiny : float := S754_finite false 1 (-1074).
Definition f_neg_half : float := S754_finite true 4503599627370496 (-53).

(** 3 * 2^-17, which scaled by 2^16 is 1.5, and -2.5. *)
Definition f_tie : float := S754_finite false 6755399441055744 (-68).
Definition f_neg_two_half : float := S754_finite true 5629499534213120 (-51).

(** The largest finite double. *)
Definition f_max : float := S754_finite false 9007199254740991 971.

(** A world in which [input.cairo] exists already, a global is bound and
    a file object was created and closed. *)
Definition used_world : World :=
  mkWorld [("learning_rate"%string, OStr "0.01"%string)]
          [("mnist_cairo/src/input.cairo"%string, "stale"%string);
           ("mnist_pytorch.onnx"%string, "onnx"%string)]
          ["mnist_cairo"%string; "mnist_cairo/src"%string]
          [("mnist_pytorch.onnx"%string, true)]
          [].

(** The same without the directory [mnist_cairo/src]. *)
Definition bare_world : World :=
  mkWorld [("learning_rate"%string, OStr "0.01"%string)]
          [("mnist_pytorch.onnx"%string, "onnx"%string)]
          []
          [("mnist_pytorch.onnx"%string, true)]
          [].



(** A stand-in for torch that learns nothing: the network is a step count,
    a batch is a number and the loss of a batch is zero. *)
Definition toy_torch : Torch := {|
  learner := nat;
  batch := Z;
  loss := unit;
  network_train := fun n => n;
  optimize := fun n _ => (S n, tt);
  loss_item := fun _ => S754_zero false;
  progress_line := fun _ _ _ _ _ _ => EmptyString
|}.

(** ** Vocabulary of the statements *)

(** The outcome of [to_fixed_point] as a function of its arguments alone. *)
Definition quantize (val : float) (bits : Z) : result Z :=
  rbind (pow2 bits) (fun p => rbind (mul val p) round).

Fixpoint traverse {A B : Type} (g : A -> result B) (l : list A) : result (list B) :=
  match l with
  | [] => Ok []
  | x :: rest =>
      rbind (g x) (fun y => rbind (traverse g rest) (fun ys => Ok (y :: ys)))
  end.

Definition returns {A : Type} (m : M A) (w : World) : Prop :=
  exists a, fst (m w) = Ok a.

Definition is_finite (x : float) : bool :=
  match x with
  | S754_zero _ | S754_finite _ _ _ => true
  | _ => false
  end.

(** [|x| < 2 ^ magnitude x] for a finite non-zero [x]. *)
Definition magnitude (x : float) : Z :=
  match x with
  | S754_finite _ m e => Zpos (digits2_pos m) + e
  | _ => 0
  end.

(** The rational [m * 2^e]. *)
Definition dyadic (m e : Z) : Q :=
  if 0 <=? e then inject_Z (m * 2 ^ e) else Qmake m (Z.to_pos (2 ^ (- e))).

(** The number a finite float stands for. *)
Definition float_value (x : float) : Q :=
  match x with
  | S754_finite s m e => dyadic (cond_Zopp s (Zpos m)) e
  | _ => 0%Q
  end.

(** [n] is the integer nearest to [q], the even one of the two when [q] is
    halfway between them. *)
Definition nearest_even (q : Q) (n : Z) : Prop :=
  (Qabs (inject_Z n - q) <= 1 # 2)%Q /\
  ((Qabs (inject_Z n - q) == 1 # 2)%Q -> Z.even n = true).

(** Reading the emitted text back: the pieces between occurrences of the
    separator, as [text.split(",\n ")] gives them. *)
Fixpoint split_go (cur s : string) : list string :=
  match s with
  | EmptyString => [cur]
  | String c s1 =>
      let continue := split_go (cur ++ String c EmptyString) s1 in
      if Ascii.eqb c "," then
        match s1 with
        | String c1 (String c2 s3) =>
            if Ascii.eqb c1 newline && Ascii.eqb c2 " "
            then cur :: split_go EmptyString s3
            else continue
        | _ => continue
        end
      else continue
  end.

Definition split_literals (s : string) : list string := split_go EmptyString s.

Fixpoint no_newline (s : string) : bool :=
  match s with
  | EmptyString => true
  | String c s' => negb (Ascii.eqb c newline) && no_newline s'
  end.

Definition is_digit (c : ascii) : bool :=
  (48 <=? nat_of_ascii c)%nat && (nat_of_ascii c <=? 57)%nat.

(** The float [val * (2**bits)], or the exception its evaluation raises. *)
Definition product (val : float) (bits : Z) : result float :=
  rbind (pow2 bits) (mul val).

(** [val] is finite and [|val| * 2^bits] stays below [2^1024], with
    [2**bits] itself convertible to a float. *)
Definition in_range (val : float) (bits : Z) : bool :=
  is_finite val && (bits <=? 1023) && (magnitude val + bits <=? 1024).

(** The text as the specification words it: one literal per value, in
    order, each but the last followed by a comma, a line break and a space. *)
Fixpoint literals_text (vs : list Z) : string :=
  match vs with
  | [] => EmptyString
  | v :: rest =>
      ("FixedTrait::<FP16x16>::new(" ++ str v ++ ", "
         ++ (if (v <? 0)%Z then "true" else "false") ++ ")"
         ++ match rest with
            | [] => EmptyString
            | _ :: _ => String "," (String newline (String " " (literals_text rest)))
            end)%string
  end.

(** A decimal text that denotes a negative number starts with a minus sign. *)
Definition negative_text (s : string) : bool :=
  match s with
  | String c _ => Ascii.eqb c "-"
  | EmptyString => false
  end.

Definition serialize (vs : list Z) : string := join separator (map literal vs).

(** *** Vocabulary of the further statements *)

Definition rmap {A B : Type} (f : A -> B) (r : result A) : result B :=
  match r with
  | Ok a => Ok (f a)
  | Raise e => Raise e
  end.

(** Reading one literal back: the two arguments of
    [FixedTrait::<FP16x16>::new(_, _)], as an integer and a boolean. *)
Fixpoint strip_prefix (p s : string) : option string :=
  match p with
  | EmptyString => Some s
  | String a p' =>
      match s with
      | String b s' => if Ascii.eqb a b then strip_prefix p' s' else None
      | EmptyString => None
      end
  end.

Fixpoint until_comma (s : string) : option (string * string) :=
  match s with
  | EmptyString => None
  | String c s' =>
      if Ascii.eqb c "," then Some (EmptyString, s')
      else
        match until_comma s' with
        | Some (a, b) => Some (String c a, b)
        | None => None
        end
  end.

Definition read_literal (s : string) : option (Z * bool) :=
  match strip_prefix "FixedTrait::<FP16x16>::new(" s with
  | None => None
  | Some rest =>
      match until_comma rest with
      | None => None
      | Some (number, flag) =>
          match NilZero.int_of_string number with
          | None => None
          | Some d =>
              if String.eqb flag " true)" then Some (Z.of_int d, true)
              else if String.eqb flag " false)" then Some (Z.of_int d, false)
              else None
          end
      end
  end.

Definition read_text (s : string) : list (option (Z * bool)) :=
  map read_literal (split_literals s).

Fixpoint no_comma (s : string) : bool :=
  match s with
  | EmptyString => true
  | String c s' => negb (Ascii.eqb c ",") && no_comma s'
  end.

(** The world once the file was opened, written and closed through a new
    file object: [w1] is the world in which [open] was called. *)
Definition written (text : string) (w1 : World) : World :=
  let w2 := snd (store "f"%string (OFile (List.length (handles w1))) w1) in
  mkWorld (globals w2)
    (assoc_set input_path ((header ++ text ++ footer)%string) (files w1))
    (dirs w1) (handles w1 ++ [(input_path, true)]) (frames w2).

(** *** Vocabulary of the statements about calls *)

(** What a name the functions call is bound to in a world. *)
Definition binding (name : string) (w : World) : option obj :=
  assoc_get name (globals w).





(** ** Proof steps used throughout *)

(** Settle a comparison that linear arithmetic decides. *)
Ltac leb_true a b :=
  replace (Z.leb a b) with true by (symmetry; apply Z.leb_le; lia).

Ltac leb_false a b :=
  replace (Z.leb a b) with false by (symmetry; apply Z.leb_gt; lia).

(** Goals about the exponent function of binary64. *)
Ltac fexp_lia := unfold fexp, emin, prec, emax; lia.

(** ** The functions never touch the world *)

Section Stateless.

Lemma to_fixed_point_run (val : float) (bits : Z) (w : World) :
  to_fixed_point val bits w = (quantize val bits, w).
Proof.
  unfold to_fixed_point, quantize, bind, lift.
  destruct (pow2 bits) as [p|e]; simpl; [|reflexivity].
  destruct (mul val p) as [x|e]; reflexivity.
Qed.

Lemma comprehension_run {A B : Type} (f : A -> M B) (g : A -> result B) :
  (forall x w, f x w = (g x, w)) ->
  forall l w, comprehension f l w = (traverse g l, w).
Proof.
  intros Hf l; induction l as [|x rest IH]; intro w; simpl.
  - reflexivity.
  - unfold bind. rewrite Hf. destruct (g x) as [y|e]; simpl; [|reflexivity].
    rewrite IH. destruct (traverse g rest) as [ys|e]; reflexivity.
Qed.

Lemma traverse_Ok {A B : Type} (g : A -> B) (l : list A) :
  traverse (fun x => Ok (g x)) l = Ok (map g l).
Proof.
  induction l as [|x rest IH]; simpl; [reflexivity|].
  rewrite IH. reflexivity.
Qed.

Lemma mnist_image_to_fixed_point_run (data : list element) (w : World) :
  mnist_image_to_fixed_point data w
  = (traverse (fun val => quantize (item val) 16) data, w).
Proof.
  unfold mnist_image_to_fixed_point.
  apply comprehension_run. intros x w'. apply to_fixed_point_run.
Qed.

Lemma generate_input_cairo_run (data : list element) (w : World) :
  generate_input_cairo data w =
  (rbind (traverse (fun val => quantize (item val) 16) data)
     (fun vs => Ok (serialize vs)), w).
Proof.
  unfold generate_input_cairo, bind.
  rewrite mnist_image_to_fixed_point_run.
  destruct (traverse _ data) as [vs|e]; simpl; [|reflexivity].
  rewrite (comprehension_run _ (fun val => Ok (literal val))) by reflexivity.
  rewrite traverse_Ok. reflexivity.
Qed.

End Stateless.

(** ** Binary64 multiplication by a power of two *)

Section Float.

Lemma iter_pos_iter {A : Type} (f : A -> A) (n : positive) (x : A) :
  iter_pos f n x = Pos.iter f x n.
Proof.
  revert x. induction n as [n IH|n IH|]; intro x; simpl.
  - rewrite !IH. rewrite <- Pos.iter_swap. rewrite <- Pos.iter_swap. reflexivity.
  - rewrite !IH. reflexivity.
  - reflexivity.
Qed.

Lemma iter_xO_pow2 (m k : positive) :
  Zpos (Pos.iter xO m k) = Zpos m * 2 ^ Zpos k.
Proof.
  induction k as [|k IH] using Pos.peano_ind.
  - simpl. lia.
  - rewrite Pos.iter_succ, Pos2Z.inj_xO, IH, Pos2Z.inj_succ, Z.pow_succ_r by lia. lia.
Qed.

Lemma shr_1_iter_xO (m k : positive) :
  Pos.iter shr_1 (Build_shr_record (Zpos (Pos.iter xO m k)) false false) k
  = Build_shr_record (Zpos m) false false.
Proof.
  induction k as [|k IH] using Pos.peano_ind.
  - reflexivity.
  - rewrite Pos.iter_succ_r. rewrite Pos.iter_succ. simpl. exact IH.
Qed.

Lemma shr_exact (M q k : positive) (E : Z) :
  Zpos M = Zpos q * 2 ^ Zpos k ->
  shr (Build_shr_record (Zpos M) false false) E (Zpos k)
  = (Build_shr_record (Zpos q) false false, E + Zpos k).
Proof.
  intro H. rewrite <- iter_xO_pow2 in H. injection H as ->.
  unfold shr. rewrite iter_pos_iter, shr_1_iter_xO. reflexivity.
Qed.

Lemma digits2_pos_size (m : positive) : digits2_pos m = Pos.size m.
Proof. induction m; simpl; congruence. Qed.

Lemma digits2_bounds (m : positive) :
  2 ^ (Zpos (digits2_pos m) - 1) <= Zpos m < 2 ^ Zpos (digits2_pos m).
Proof.
  rewrite digits2_pos_size. split.
  - pose proof (Pos.size_le m) as H.
    assert (H' : 2 ^ Zpos (Pos.size m) <= 2 * Zpos m).
    { rewrite <- Pos2Z.inj_pow. change (2 * Zpos m) with (Zpos m~0). exact H. }
    replace (Zpos (Pos.size m)) with (Z.succ (Zpos (Pos.size m) - 1)) in H' by lia.
    rewrite Z.pow_succ_r in H' by lia. lia.
  - pose proof (Pos.size_gt m) as H.
    rewrite <- Pos2Z.inj_pow. exact H.
Qed.

Lemma digits2_unique (m : positive) (d : Z) :
  2 ^ (d - 1) <= Zpos m < 2 ^ d -> Zpos (digits2_pos m) = d.
Proof.
  intros [Hlo Hhi]. pose proof (digits2_bounds m) as [Blo Bhi].
  assert (Hd : 0 < d).
  { destruct (Z.lt_ge_cases 0 d) as [|Hle]; [assumption|].
    destruct (Z.eq_dec d 0) as [->|Hne]; [simpl in Hhi; lia|].
    rewrite Z.pow_neg_r in Hhi by lia. lia. }
  destruct (Z.lt_trichotomy (Zpos (digits2_pos m)) d) as [Hlt|[Heq|Hgt]].
  - assert (2 ^ Zpos (digits2_pos m) <= 2 ^ (d - 1)) by (apply Z.pow_le_mono_r; lia). lia.
  - exact Heq.
  - assert (2 ^ d <= 2 ^ (Zpos (digits2_pos m) - 1)) by (apply Z.pow_le_mono_r; lia). lia.
Qed.

Lemma digits2_shift (M q : positive) (n : Z) :
  0 <= n -> Zpos M = Zpos q * 2 ^ n ->
  Zpos (digits2_pos M) = Zpos (digits2_pos q) + n.
Proof.
  intros Hn H. apply digits2_unique. rewrite H.
  pose proof (digits2_bounds q) as [Blo Bhi].
  replace (Zpos (digits2_pos q) + n - 1) with ((Zpos (digits2_pos q) - 1) + n) by lia.
  rewrite !Z.pow_add_r by lia.
  assert (0 < 2 ^ n) by (apply Z.pow_pos_nonneg; lia).
  split; nia.
Qed.

(** Rounding a mantissa that only carries [n] spare low zero bits is exact:
    the bits are dropped and nothing else happens. *)
Lemma binary_round_aux_exact (s : bool) (M q : positive) (E n : Z) :
  0 <= n ->
  Zpos M = Zpos q * 2 ^ n ->
  fexp prec emax (Zpos (digits2_pos M) + E) = E + n ->
  binary_round_aux prec emax s (Zpos M) E loc_Exact
  = if E + n <=? emax - prec then S754_finite s q (E + n) else S754_infinity s.
Proof.
  intros Hn HM Hfexp.
  pose proof (digits2_shift M q n Hn HM) as Hd.
  unfold binary_round_aux, shr_fexp.
  cbn [Zdigits2 shr_record_of_loc].
  rewrite Hfexp. replace (E + n - E) with n by lia.
  assert (Hfst : shr (Build_shr_record (Zpos M) false false) E n
                 = (Build_shr_record (Zpos q) false false, E + n)).
  { destruct n as [|k|k]; [| |lia].
    - simpl. rewrite Z.add_0_r. f_equal. f_equal. lia.
    - apply shr_exact. exact HM. }
  rewrite Hfst. cbn [shr_m loc_of_shr_record round_nearest_even Zdigits2 shr_record_of_loc].
  replace (Zpos (digits2_pos q) + (E + n)) with (Zpos (digits2_pos M) + E) by lia.
  rewrite Hfexp, Z.sub_diag. cbn [shr shr_m]. reflexivity.
Qed.

Lemma pow2_pos (n : Z) : 0 <= n -> 0 < 2 ^ n.
Proof. intro H. apply Z.pow_pos_nonneg; lia. Qed.

Lemma digits2_pow2 (p : positive) (b : Z) :
  0 <= b -> Zpos p = 2 ^ b -> Zpos (digits2_pos p) = b + 1.
Proof.
  intros Hb Hp. apply digits2_unique. rewrite Hp.
  replace (b + 1 - 1) with b by lia.
  rewrite Z.pow_add_r by lia. pose proof (pow2_pos b Hb). lia.
Qed.

(** [float(2**bits)]: exact up to [2**1023], an OverflowError beyond. *)
Lemma float_of_int_pow2 (b : Z) :
  0 <= b ->
  float_of_int (2 ^ b)
  = if b <=? 1023 then Ok (S754_finite false 4503599627370496 (b - 52))
    else Raise OverflowError.
Proof.
  intro Hb. pose proof (pow2_pos b Hb) as Hpos.
  destruct (2 ^ b) as [|p|p] eqn:Hp'; try lia.
  assert (Hp : Zpos p = 2 ^ b) by (symmetry; exact Hp'). clear Hp'.
  pose proof (digits2_pow2 p b Hb Hp) as Hd.
  unfold float_of_int, binary_normalize, binary_round, shl_align.
  assert (Hf : fexp prec emax (Zpos (digits2_pos p) + 0) = b - 52).
  { rewrite Hd. fexp_lia. }
  rewrite Hf.
  assert (H52 : 2 ^ 52 = 4503599627370496) by reflexivity.
  destruct (b - 52 - 0) as [|k|k] eqn:Hk.
  - assert (b = 52) by lia. subst b.
    rewrite (binary_round_aux_exact false p p 0 0); [|lia|lia|rewrite Hd; reflexivity].
    simpl. f_equal. f_equal. lia.
  - rewrite (binary_round_aux_exact false p 4503599627370496 0 (b - 52)).
    + unfold emax, prec.
      destruct (b <=? 1023) eqn:Hle; [apply Z.leb_le in Hle|apply Z.leb_gt in Hle].
      * leb_true (0 + (b - 52)) (1024 - 53).
        reflexivity.
      * leb_false (0 + (b - 52)) (1024 - 53).
        reflexivity.
    + lia.
    + rewrite Hp. rewrite <- H52, <- Z.pow_add_r by lia. f_equal. lia.
    + rewrite Z.add_0_r in Hf. rewrite Z.add_0_r. rewrite Hf. lia.
  - assert (HM : Zpos (Pos.iter xO p k) = 4503599627370496).
    { rewrite iter_xO_pow2, Hp, <- Z.pow_add_r, <- H52 by lia. f_equal. lia. }
    injection HM as HM. rewrite HM.
    rewrite (binary_round_aux_exact false _ 4503599627370496 (b - 52) 0);
      [|lia|lia|unfold fexp, emin, prec, emax; simpl digits2_pos; lia].
    unfold emax, prec.
    leb_true (b) (1023).
    leb_true (b - 52 + 0) (1024 - 53).
    rewrite Z.add_0_r. reflexivity.
Qed.

(** Multiplying a double by [2**b] only moves its exponent: the product is
    the exact scaled value while that fits, and an infinity otherwise. *)
Lemma float_mul_pow2 (s : bool) (mx : positive) (ex b : Z) :
  valid_binary prec emax (S754_finite s mx ex) = true ->
  0 <= b ->
  exists (q : positive) (k : Z),
    0 <= k /\ Zpos q = Zpos mx * 2 ^ k /\
    float_mul (S754_finite s mx ex) (S754_finite false 4503599627370496 (b - 52))
    = if Zpos (digits2_pos mx) + ex + b <=? 1024
      then S754_finite s q (ex + b - k) else S754_infinity s.
Proof.
  intros Hvalid Hb.
  unfold valid_binary, bounded, canonical_mantissa in Hvalid.
  apply andb_prop in Hvalid as [Hcanon Hbound].
  apply Z.eqb_eq in Hcanon. apply Z.leb_le in Hbound.
  unfold fexp, emin, prec, emax in Hcanon, Hbound.
  set (d := Zpos (digits2_pos mx)) in *.
  assert (Hd : 1 <= d) by (unfold d; lia).
  set (n := Z.max (d + ex + b - 53) (-1074) - (ex + b - 52)).
  assert (Hn : 0 <= n <= 52) by (unfold n; lia).
  assert (Hq : 0 < Zpos mx * 2 ^ (52 - n)).
  { pose proof (pow2_pos (52 - n)). lia. }
  exists (Z.to_pos (Zpos mx * 2 ^ (52 - n))), (52 - n).
  split; [lia|]. split; [rewrite Z2Pos.id by exact Hq; reflexivity|].
  unfold float_mul, SFmul. rewrite xorb_false_r.
  assert (HM : Zpos (mx * 4503599627370496) = Zpos mx * 2 ^ 52) by reflexivity.
  rewrite (binary_round_aux_exact s _ (Z.to_pos (Zpos mx * 2 ^ (52 - n))) _ n).
  - replace (ex + (b - 52) + n) with (ex + b - (52 - n)) by lia.
    unfold emax, prec.
    destruct (d + ex + b <=? 1024) eqn:Hle; [apply Z.leb_le in Hle|apply Z.leb_gt in Hle].
    + replace (ex + b - (52 - n) <=? 1024 - 53) with true
        by (symmetry; apply Z.leb_le; unfold n; lia).
      reflexivity.
    + replace (ex + b - (52 - n) <=? 1024 - 53) with false
        by (symmetry; apply Z.leb_gt; unfold n; lia).
      reflexivity.
  - lia.
  - rewrite Z2Pos.id by exact Hq. rewrite HM.
    rewrite <- Z.mul_assoc, <- Z.pow_add_r by lia. do 2 f_equal. lia.
  - rewrite (digits2_shift _ mx 52 ltac:(lia) HM).
    fold d. unfold fexp, emin, prec, emax, n. lia.
Qed.

(** *** Rounding in general: the shape of the result *)

Lemma shr_1_m (r : shr_record) : 0 <= shr_m r -> shr_m (shr_1 r) = shr_m r / 2.
Proof.
  destruct r as [m a b]. cbn [shr_m]. intro H.
  destruct m as [|[p|p|]|p]; cbn [shr_1 shr_m]; try lia.
  - reflexivity.
  - apply (Z.div_unique (Zpos p~1) 2 (Zpos p) 1); lia.
  - apply (Z.div_unique (Zpos p~0) 2 (Zpos p) 0); lia.
  - reflexivity.
Qed.

Lemma shr_m_iter (k : positive) (r : shr_record) :
  0 <= shr_m r -> shr_m (Pos.iter shr_1 r k) = shr_m r / 2 ^ Zpos k.
Proof.
  intro H. induction k as [|k IH] using Pos.peano_ind.
  - cbn [Pos.iter]. rewrite shr_1_m by exact H. reflexivity.
  - rewrite Pos.iter_succ, shr_1_m.
    + rewrite IH, Pos2Z.inj_succ, Z.pow_succ_r by lia.
      rewrite Z.div_div by (pose proof (pow2_pos (Zpos k)); lia).
      f_equal. lia.
    + rewrite IH. apply Z.div_pos; [exact H|apply pow2_pos; lia].
Qed.

Lemma round_nearest_even_bounds (m : Z) (l : location) :
  m <= round_nearest_even m l <= m + 1.
Proof.
  destruct l as [|[ | | ]]; cbn [round_nearest_even]; try lia.
  destruct (Z.even m); lia.
Qed.

Lemma digits2_le (p : positive) (d : Z) :
  Zpos p < 2 ^ d -> Zpos (digits2_pos p) <= d.
Proof.
  intro H. pose proof (digits2_bounds p) as [Hlo _].
  destruct (Z.le_gt_cases (Zpos (digits2_pos p)) d) as [|Hgt]; [assumption|].
  assert (2 ^ d <= 2 ^ (Zpos (digits2_pos p) - 1)).
  { destruct (Z.lt_ge_cases d 0) as [Hneg|Hpos].
    - rewrite (Z.pow_neg_r 2 d) by exact Hneg. apply Z.pow_nonneg. lia.
    - apply Z.pow_le_mono_r; lia. }
  lia.
Qed.

Lemma shr_no_shift (r : shr_record) (e n : Z) : n <= 0 -> shr r e n = (r, e).
Proof. destruct n; intro H; try lia; reflexivity. Qed.

(** Whatever is rounded, the result is a zero, or carries at most 53
    significant bits at the target exponent, or one above it after a carry;
    it is an infinity only when that exponent is too large. *)
Lemma binary_round_aux_shape (s : bool) (M : positive) (E : Z) :
  E <= fexp prec emax (Zpos (digits2_pos M) + E) ->
  binary_round_aux prec emax s (Zpos M) E loc_Exact = S754_zero s \/
  exists m e,
    fexp prec emax (Zpos (digits2_pos M) + E) <= e
      <= fexp prec emax (Zpos (digits2_pos M) + E) + 1 /\
    Zpos m <= 2 ^ 53 /\
    binary_round_aux prec emax s (Zpos M) E loc_Exact
    = if e <=? emax - prec then S754_finite s m e else S754_infinity s.
Proof.
  set (t := fexp prec emax (Zpos (digits2_pos M) + E)). intro HE.
  assert (Ht : -1074 <= t /\ Zpos (digits2_pos M) + E - 53 <= t)
    by (unfold t, fexp, emin, prec, emax; lia).
  pose proof (digits2_bounds M) as [_ HM].
  unfold binary_round_aux, shr_fexp. cbn [Zdigits2 shr_record_of_loc]. fold t.
  destruct (shr (Build_shr_record (Zpos M) false false) E (t - E)) as [r1 e1] eqn:H1.
  assert (Hr1 : e1 = t /\ 0 <= shr_m r1 < 2 ^ 53).
  { destruct (t - E) as [|n|n] eqn:Hn; try lia.
    - cbn [shr] in H1. injection H1 as <- <-. cbn [shr_m]. split; [lia|].
      split; [lia|]. eapply Z.lt_le_trans; [exact HM|]. apply Z.pow_le_mono_r; lia.
    - cbn [shr] in H1. injection H1 as <- <-. split; [lia|].
      rewrite iter_pos_iter, shr_m_iter by (cbn; lia). cbn [shr_m].
      pose proof (pow2_pos (Zpos n) ltac:(lia)) as Hp.
      split; [apply Z.div_pos; lia|].
      apply Z.div_lt_upper_bound; [exact Hp|].
      rewrite <- Z.pow_add_r by lia.
      eapply Z.lt_le_trans; [exact HM|]. apply Z.pow_le_mono_r; lia. }
  destruct Hr1 as [-> Hm1].
  pose proof (round_nearest_even_bounds (shr_m r1) (loc_of_shr_record r1)) as Hrne.
  destruct (round_nearest_even (shr_m r1) (loc_of_shr_record r1)) as [|p|p] eqn:Hp;
    try lia.
  - left. cbn [Zdigits2]. rewrite shr_no_shift
      by (fexp_lia).
    reflexivity.
  - right. cbn [Zdigits2].
    destruct (Z.eq_dec (Zpos p) (2 ^ 53)) as [Heq|Hne].
    + exists 4503599627370496%positive, (t + 1).
      split; [lia|]. split; [vm_compute; discriminate|].
      assert (Hd : Zpos (digits2_pos p) = 54).
      { apply digits2_unique. rewrite Heq. change (54 - 1) with 53.
        split; [lia|]. apply Z.pow_lt_mono_r; lia. }
      rewrite Hd.
      replace (fexp prec emax (54 + t) - t) with 1
        by (fexp_lia).
      rewrite (shr_exact p 4503599627370496 1 t) by (rewrite Heq; reflexivity).
      reflexivity.
    + exists p, t. split; [lia|]. split; [lia|].
      assert (Hd : Zpos (digits2_pos p) <= 53) by (apply digits2_le; lia).
      rewrite shr_no_shift by (fexp_lia).
      reflexivity.
Qed.

Lemma binary_round_fits (s : bool) (p : positive) :
  Zpos p < 2 ^ 1023 ->
  is_finite (binary_round prec emax s p 0) = true.
Proof.
  intro Hp. pose proof (digits2_le p 1023 Hp) as Hd.
  unfold binary_round, shl_align.
  set (d := Zpos (digits2_pos p)) in *.
  assert (Hf : fexp prec emax (d + 0) = d - 53)
    by (unfold fexp, emin, prec, emax, d; lia).
  rewrite Hf.
  assert (Hshape : forall M E,
            E <= fexp prec emax (Zpos (digits2_pos M) + E) ->
            fexp prec emax (Zpos (digits2_pos M) + E) <= 970 ->
            is_finite (binary_round_aux prec emax s (Zpos M) E loc_Exact) = true).
  { intros M E HE Ht.
    destruct (binary_round_aux_shape s M E HE) as [->|(m & e & He & _ & ->)];
      [reflexivity|].
    replace (e <=? emax - prec) with true
      by (symmetry; apply Z.leb_le; unfold emax, prec; lia).
    reflexivity. }
  destruct (d - 53 - 0) as [|k|k] eqn:Hk.
  - apply Hshape; fold d; fexp_lia.
  - apply Hshape; fold d; fexp_lia.
  - assert (HM : Zpos (digits2_pos (Pos.iter xO p k)) = 53).
    { rewrite (digits2_shift _ p (Zpos k)); [fold d; lia|lia|apply iter_xO_pow2]. }
    apply Hshape; rewrite HM; fexp_lia.
Qed.

(** [float(n)] succeeds below [2**1023] in magnitude. *)
Lemma float_of_int_returns (n : Z) :
  Z.abs n < 2 ^ 1023 -> exists f, float_of_int n = Ok f.
Proof.
  intro Hn. unfold float_of_int, binary_normalize.
  destruct n as [|p|p].
  - eexists. reflexivity.
  - pose proof (binary_round_fits false p ltac:(lia)) as H.
    destruct (binary_round prec emax false p 0); try discriminate; eexists; reflexivity.
  - pose proof (binary_round_fits true p ltac:(lia)) as H.
    destruct (binary_round prec emax true p 0); try discriminate; eexists; reflexivity.
Qed.

(** The float [2.0 ** bits] for a negative [bits]: exact down to the
    smallest subnormal, zero below. *)
Lemma float_pow2_negative (bits : Z) :
  -1074 <= bits < 0 ->
  binary_normalize prec emax 1 bits false
  = S754_finite false (Z.to_pos (2 ^ Z.min 52 (bits + 1074)))
      (bits - Z.min 52 (bits + 1074)).
Proof.
  intro Hb. set (k := Z.min 52 (bits + 1074)).
  assert (Hk : 0 <= k <= 52) by (unfold k; lia).
  pose proof (pow2_pos k ltac:(lia)) as Hpos.
  unfold binary_normalize, binary_round, shl_align. cbn [digits2_pos].
  assert (Hf : fexp prec emax (1 + bits) = bits - k)
    by (unfold fexp, emin, prec, emax, k; lia).
  rewrite Hf.
  assert (Hfin : forall M, Zpos M = 2 ^ k ->
            binary_round_aux prec emax false (Zpos M) (bits - k) loc_Exact
            = S754_finite false (Z.to_pos (2 ^ k)) (bits - k)).
  { intros M HM.
    rewrite (binary_round_aux_exact false M M (bits - k) 0).
    - replace (bits - k + 0 <=? emax - prec) with true
        by (symmetry; apply Z.leb_le; unfold emax, prec; lia).
      rewrite Z.add_0_r, <- HM. reflexivity.
    - lia.
    - lia.
    - rewrite (digits2_pow2 M k) by (lia || exact HM).
      unfold fexp, emin, prec, emax, k. lia. }
  destruct (bits - k - bits) as [|j|j] eqn:Hj; try lia.
  - replace (binary_round_aux prec emax false 1 bits loc_Exact)
      with (binary_round_aux prec emax false 1 (bits - k) loc_Exact)
      by (f_equal; lia).
    apply Hfin. replace k with 0 by lia. reflexivity.
  - apply Hfin. rewrite iter_xO_pow2. replace (Zpos j) with k by lia. lia.
Qed.

Lemma shr_1_sticky (k : positive) :
  Pos.iter shr_1 (Build_shr_record 0 false true) k = Build_shr_record 0 false true.
Proof.
  induction k as [|k IH] using Pos.peano_ind; [reflexivity|].
  rewrite Pos.iter_succ, IH. reflexivity.
Qed.

Lemma float_pow2_underflow (bits : Z) :
  bits < -1074 ->
  binary_normalize prec emax 1 bits false = S754_zero false.
Proof.
  intro Hb.
  unfold binary_normalize, binary_round, shl_align. cbn [digits2_pos].
  assert (Hf : fexp prec emax (1 + bits) = -1074)
    by (fexp_lia).
  rewrite Hf.
  destruct (-1074 - bits) as [|j|j] eqn:Hj; try lia.
  unfold binary_round_aux, shr_fexp. cbn [Zdigits2 digits2_pos shr_record_of_loc].
  rewrite Hf, Hj. cbn [shr]. rewrite iter_pos_iter.
  assert (Hrne : round_nearest_even
                   (shr_m (Pos.iter shr_1 (Build_shr_record 1 false false) j))
                   (loc_of_shr_record
                      (Pos.iter shr_1 (Build_shr_record 1 false false) j)) = 0).
  { destruct (Pos.eq_dec j 1) as [->|Hj1]; [reflexivity|].
    rewrite <- (Pos.succ_pred j Hj1), Pos.iter_succ_r.
    destruct (Pos.eq_dec (Pos.pred j) 1) as [->|Hj2]; [reflexivity|].
    rewrite <- (Pos.succ_pred (Pos.pred j) Hj2), Pos.iter_succ_r.
    cbn [shr_1 orb]. rewrite shr_1_sticky. reflexivity. }
  rewrite Hrne. cbn [Zdigits2].
  rewrite shr_no_shift by (fexp_lia).
  reflexivity.
Qed.

End Float.

(** ** Rounding to the nearest integer, ties to even *)

Section Rounding.

Lemma nearest_even_Z (a n : Z) (b : positive) :
  nearest_even (a # b) n <->
  2 * Z.abs (n * Zpos b - a) <= Zpos b /\
  (2 * Z.abs (n * Zpos b - a) = Zpos b -> Z.even n = true).
Proof.
  unfold nearest_even, Qabs, Qminus, Qplus, Qopp, inject_Z, Qle, Qeq.
  cbn [Qnum Qden]. rewrite !Pos.mul_1_l.
  replace (n * Zpos b + - a * 1) with (n * Zpos b - a) by lia.
  split; intros [H1 H2]; (split; [lia|intro H; apply H2; lia]).
Qed.

Lemma nearest_even_int (n : Z) : nearest_even (inject_Z n) n.
Proof.
  unfold inject_Z. apply nearest_even_Z. split; [lia|]. intro H. lia.
Qed.

Lemma nearest_even_opp (q : Q) (n : Z) :
  nearest_even q n -> nearest_even (- q) (- n).
Proof.
  destruct q as [a b]. unfold Qopp. cbn [Qnum Qden].
  rewrite !nearest_even_Z. intros [H1 H2].
  replace (- n * Zpos b - - a) with (- (n * Zpos b - a)) by lia.
  rewrite Z.abs_opp, Z.even_opp. split; assumption.
Qed.

Lemma nearest_even_Qeq (q q' : Q) (n : Z) :
  (q == q')%Q -> nearest_even q n -> nearest_even q' n.
Proof.
  unfold nearest_even. intros H [H1 H2]. split.
  - rewrite <- H. exact H1.
  - intro H3. apply H2. rewrite H. exact H3.
Qed.

(** The two conditions single out one integer. *)
Lemma nearest_even_unique (q : Q) (n1 n2 : Z) :
  nearest_even q n1 -> nearest_even q n2 -> n1 = n2.
Proof.
  destruct q as [a b]. rewrite !nearest_even_Z. intros [H1 E1] [H2 E2].
  assert (Hclose : n1 = n2 \/ n1 = n2 + 1 \/ n2 = n1 + 1) by nia.
  destruct Hclose as [H|[H|H]]; [exact H| |].
  - assert (Z.even n1 = true) by (apply E1; nia).
    assert (Z.even n2 = true) by (apply E2; nia).
    subst n1. rewrite Z.even_add in *. simpl in *.
    destruct (Z.even n2); discriminate.
  - assert (Z.even n1 = true) by (apply E1; nia).
    assert (Z.even n2 = true) by (apply E2; nia).
    subst n2. rewrite Z.even_add in *. simpl in *.
    destruct (Z.even n1); discriminate.
Qed.

Lemma round_half_even_spec (m : positive) (e : Z) :
  nearest_even (dyadic (Zpos m) e) (round_half_even m e).
Proof.
  unfold dyadic, round_half_even.
  destruct (0 <=? e) eqn:He; [apply nearest_even_int|].
  apply Z.leb_gt in He.
  pose proof (pow2_pos (- e) ltac:(lia)) as Hd.
  set (d := 2 ^ (- e)) in *.
  apply nearest_even_Z. rewrite Z2Pos.id by exact Hd.
  pose proof (Z.div_mod (Zpos m) d ltac:(lia)) as Hm.
  pose proof (Z.mod_pos_bound (Zpos m) d Hd) as Hr.
  set (q := Zpos m / d) in *. set (r := Zpos m mod d) in *.
  destruct (2 * r ?= d) eqn:Hc.
  - apply Z.compare_eq in Hc.
    destruct (Z.even q) eqn:Hq.
    + split; [nia|]. intros _. exact Hq.
    + split; [nia|]. intros _. rewrite Z.even_add, Hq. reflexivity.
  - rewrite Z.compare_lt_iff in Hc. split; [nia|]. intro H. nia.
  - rewrite Z.compare_gt_iff in Hc. split; [nia|]. intro H. nia.
Qed.

Lemma float_value_opp (s : bool) (m : positive) (e : Z) :
  (float_value (S754_finite s m e)
   == if s then - dyadic (Zpos m) e else dyadic (Zpos m) e)%Q.
Proof.
  destruct s; cbn [float_value cond_Zopp]; [|reflexivity].
  change (- Zpos m) with (Zneg m). change (Zneg m) with (- Zpos m).
  unfold dyadic. destruct (0 <=? e).
  - unfold inject_Z, Qopp, Qeq. cbn [Qnum Qden]. lia.
  - unfold Qopp, Qeq. cbn [Qnum Qden]. reflexivity.
Qed.

(** [round] returns the integer nearest to a finite float, ties to even,
    and raises on the others. *)
Lemma round_spec (x : float) :
  is_finite x = true ->
  exists n, round x = Ok n /\ nearest_even (float_value x) n.
Proof.
  destruct x as [s|s| |s m e]; simpl; try discriminate; intros _.
  - exists 0. split; [reflexivity|]. apply (nearest_even_int 0).
  - exists (cond_Zopp s (round_half_even m e)). split; [reflexivity|].
    pose proof (round_half_even_spec m e) as H.
    apply (nearest_even_Qeq (if s then - dyadic (Zpos m) e else dyadic (Zpos m) e)).
    + symmetry. apply (float_value_opp s m e).
    + destruct s; simpl; [apply nearest_even_opp|]; exact H.
Qed.

End Rounding.

(** ** What [to_fixed_point] computes *)

Section Quantization.

Lemma pow2_add (a b c : Z) :
  0 <= a -> 0 <= b -> c = a + b -> 2 ^ c = 2 ^ a * 2 ^ b.
Proof. intros Ha Hb ->. apply Z.pow_add_r; assumption. Qed.

Lemma dyadic_scale (m e k : Z) :
  0 <= k -> (dyadic (m * 2 ^ k) (e - k) == dyadic m e)%Q.
Proof.
  intro Hk. unfold dyadic.
  destruct (0 <=? e - k) eqn:H1; [apply Z.leb_le in H1|apply Z.leb_gt in H1].
  - leb_true (0) (e).
    unfold inject_Z, Qeq. cbn [Qnum Qden].
    rewrite (pow2_add k (e - k) e) by lia. ring.
  - pose proof (pow2_pos (- (e - k)) ltac:(lia)) as P1.
    destruct (0 <=? e) eqn:H2; [apply Z.leb_le in H2|apply Z.leb_gt in H2].
    + unfold inject_Z, Qeq. cbn [Qnum Qden]. rewrite Z2Pos.id by exact P1.
      rewrite (pow2_add e (- (e - k)) k) by lia. ring.
    + pose proof (pow2_pos (- e) ltac:(lia)) as P2.
      unfold Qeq. cbn [Qnum Qden]. rewrite !Z2Pos.id by assumption.
      rewrite (pow2_add k (- e) (- (e - k))) by lia. ring.
Qed.

(** [dyadic m e] is [m * 2^e] in the rationals. *)
Lemma dyadic_Qpower (m e : Z) : (dyadic m e == inject_Z m * 2 ^ e)%Q.
Proof.
  unfold dyadic. destruct (0 <=? e) eqn:He; [apply Z.leb_le in He|apply Z.leb_gt in He].
  - rewrite inject_Z_mult, Zpower_Qpower by exact He. reflexivity.
  - pose proof (pow2_pos (- e) ltac:(lia)) as Hp.
    rewrite Qmake_Qdiv, Z2Pos.id by exact Hp.
    rewrite Zpower_Qpower by lia. rewrite Qpower_opp.
    unfold Qdiv. rewrite Qinv_involutive. reflexivity.
Qed.

Lemma dyadic_shift (m e b : Z) :
  (dyadic m (e + b) == dyadic m e * 2 ^ b)%Q.
Proof.
  rewrite !dyadic_Qpower. rewrite Qpower_plus by discriminate. ring.
Qed.

Lemma cond_Zopp_mul (s : bool) (a b : Z) :
  cond_Zopp s a * b = cond_Zopp s (a * b).
Proof. destruct s; simpl; lia. Qed.

Lemma round_half_even_tiny (m : positive) (e : Z) :
  Zpos m <= 2 ^ 53 -> e <= -55 -> round_half_even m e = 0.
Proof.
  intros Hm He. unfold round_half_even.
  leb_false (0) (e).
  assert (Hd : 2 ^ 55 <= 2 ^ (- e)) by (apply Z.pow_le_mono_r; lia).
  assert (H53 : 2 * 2 ^ 53 < 2 ^ 55) by (vm_compute; reflexivity).
  rewrite Z.div_small, Z.mod_small by lia.
  replace (2 * Zpos m ?= 2 ^ (- e)) with Lt
    by (symmetry; apply Z.compare_lt_iff; lia).
  reflexivity.
Qed.

(** A float below one half in magnitude is nearest to zero. *)
Lemma nearest_even_small (s : bool) (m : positive) (e : Z) :
  Zpos (digits2_pos m) + e <= -1 ->
  nearest_even (dyadic (cond_Zopp s (Zpos m)) e) 0.
Proof.
  intro H. pose proof (digits2_bounds m) as [_ Hm].
  unfold dyadic. leb_false (0) (e).
  pose proof (pow2_pos (- e) ltac:(lia)) as Hp.
  apply nearest_even_Z. rewrite Z2Pos.id by exact Hp.
  assert (Hlt : 2 * Zpos m < 2 ^ (- e)).
  { replace (- e) with (Z.succ (- e - 1)) by lia. rewrite Z.pow_succ_r by lia.
    assert (2 ^ Zpos (digits2_pos m) <= 2 ^ (- e - 1)) by (apply Z.pow_le_mono_r; lia).
    lia. }
  destruct s; cbn [cond_Zopp]; split; lia.
Qed.

(** The product of a double and a canonical power of two, rounded to an
    integer: the integer nearest to the exact product, or an infinity when
    the exact product does not fit. *)
Lemma float_mul_pow2_round (s : bool) (mx : positive) (ex k b : Z) :
  valid_binary prec emax (S754_finite s mx ex) = true ->
  0 <= k <= 52 ->
  k = 52 \/ b - k = -1074 ->
  if Zpos (digits2_pos mx) + ex + b <=? 1024
  then exists n,
         round (float_mul (S754_finite s mx ex)
                  (S754_finite false (Z.to_pos (2 ^ k)) (b - k))) = Ok n /\
         nearest_even (dyadic (cond_Zopp s (Zpos mx)) (ex + b)) n
  else float_mul (S754_finite s mx ex) (S754_finite false (Z.to_pos (2 ^ k)) (b - k))
       = S754_infinity s.
Proof.
  intros Hvalid Hk Hcanon.
  unfold valid_binary, bounded, canonical_mantissa in Hvalid.
  apply andb_prop in Hvalid as [Hc Hbound].
  apply Z.eqb_eq in Hc. apply Z.leb_le in Hbound.
  unfold fexp, emin, prec, emax in Hc, Hbound.
  set (d := Zpos (digits2_pos mx)) in *.
  assert (Hd : 1 <= d) by (unfold d; lia).
  pose proof (pow2_pos k ltac:(lia)) as Hpk.
  unfold float_mul, SFmul. rewrite xorb_false_r.
  assert (HM : Zpos (mx * Z.to_pos (2 ^ k)) = Zpos mx * 2 ^ k)
    by (rewrite Pos2Z.inj_mul, Z2Pos.id by exact Hpk; reflexivity).
  pose proof (digits2_shift _ mx k ltac:(lia) HM) as HdM. fold d in HdM.
  destruct (Z.le_gt_cases (-1021) (d + ex + b)) as [Hnormal|Htiny].
  - set (n := d + k - 53).
    assert (Hn : 0 <= n <= k) by (unfold n; lia).
    assert (Hq : 0 < Zpos mx * 2 ^ (k - n))
      by (pose proof (pow2_pos (k - n) ltac:(lia)); lia).
    rewrite (binary_round_aux_exact s _ (Z.to_pos (Zpos mx * 2 ^ (k - n))) _ n).
    + replace (ex + (b - k) + n) with (ex + b - (k - n)) by lia.
      unfold emax, prec.
      destruct (d + ex + b <=? 1024) eqn:Hle;
        [apply Z.leb_le in Hle|apply Z.leb_gt in Hle].
      * replace (ex + b - (k - n) <=? 1024 - 53) with true
          by (symmetry; apply Z.leb_le; unfold n; lia).
        eexists. split; [reflexivity|].
        apply (nearest_even_Qeq
                 (float_value (S754_finite s (Z.to_pos (Zpos mx * 2 ^ (k - n)))
                                 (ex + b - (k - n))))).
        -- cbn [float_value]. rewrite Z2Pos.id by exact Hq.
           rewrite <- cond_Zopp_mul. apply dyadic_scale. lia.
        -- destruct (round_spec (S754_finite s (Z.to_pos (Zpos mx * 2 ^ (k - n)))
                                   (ex + b - (k - n))) eq_refl) as (r & Hr & Hnear).
           cbn [round] in Hr. injection Hr as <-. exact Hnear.
      * replace (ex + b - (k - n) <=? 1024 - 53) with false
          by (symmetry; apply Z.leb_gt; unfold n; lia).
        reflexivity.
    + lia.
    + rewrite Z2Pos.id by exact Hq. rewrite HM.
      rewrite <- Z.mul_assoc, <- Z.pow_add_r by lia. do 2 f_equal. lia.
    + rewrite HdM. unfold fexp, emin, prec, emax, n. lia.
  - leb_true (d + ex + b) (1024).
    assert (Hf : fexp prec emax (Zpos (digits2_pos (mx * Z.to_pos (2 ^ k)))
                                 + (ex + (b - k))) = -1074)
      by (rewrite HdM; fexp_lia).
    exists 0. split; [|apply nearest_even_small; fold d; lia].
    destruct (binary_round_aux_shape s (mx * Z.to_pos (2 ^ k)) (ex + (b - k)))
      as [->|(m & e & He & Hm & ->)].
    + rewrite Hf. lia.
    + reflexivity.
    + rewrite Hf in He.
      replace (e <=? emax - prec) with true
        by (symmetry; apply Z.leb_le; unfold emax, prec; lia).
      cbn [round]. rewrite round_half_even_tiny by (lia || exact Hm).
      destruct s; reflexivity.
Qed.

Lemma float_value_shift (s : bool) (m : positive) (e b : Z) :
  (float_value (S754_finite s m e) * 2 ^ b == dyadic (cond_Zopp s (Zpos m)) (e + b))%Q.
Proof. cbn [float_value]. symmetry. apply dyadic_shift. Qed.

Lemma valid_magnitude (s : bool) (m : positive) (e : Z) :
  valid_binary prec emax (S754_finite s m e) = true ->
  Zpos (digits2_pos m) + e <= 1024.
Proof.
  unfold valid_binary, bounded, canonical_mantissa. intro H.
  apply andb_prop in H as [Hc Hb]. apply Z.eqb_eq in Hc. apply Z.leb_le in Hb.
  unfold fexp, emin, prec, emax in Hc, Hb. lia.
Qed.

(** The right operand of the product: a zero when [2.0 ** bits]
    underflows, a canonical power of two otherwise. *)
Lemma product_operand (val : float) (bits : Z) :
  - 2 ^ 1023 < bits <= 1023 ->
  exists y,
    product val bits = Ok (float_mul val y) /\
    (y = S754_zero false /\ bits < -1074 \/
     exists k, 0 <= k <= 52 /\ (k = 52 \/ bits - k = -1074) /\
               y = S754_finite false (Z.to_pos (2 ^ k)) (bits - k)).
Proof.
  intro Hb. unfold product, pow2.
  destruct (0 <=? bits) eqn:H0; [apply Z.leb_le in H0|apply Z.leb_gt in H0].
  - cbn [rbind mul]. rewrite float_of_int_pow2 by exact H0.
    leb_true (bits) (1023).
    eexists. split; [reflexivity|]. right. exists 52.
    split; [lia|]. split; [left; reflexivity|reflexivity].
  - destruct (float_of_int_returns bits ltac:(lia)) as [f ->]. cbn [rbind mul].
    eexists. split; [reflexivity|].
    destruct (Z.lt_ge_cases bits (-1074)) as [Hlow|Hhigh].
    + left. split; [apply float_pow2_underflow; exact Hlow|exact Hlow].
    + right. exists (Z.min 52 (bits + 1074)). split; [lia|]. split; [lia|].
      apply float_pow2_negative. lia.
Qed.

(** The float product and its rounding, for every [bits] between
    [-2**1023] and [1023]. *)
Lemma product_round (val : float) (bits : Z) :
  valid_binary prec emax val = true ->
  is_finite val = true ->
  - 2 ^ 1023 < bits <= 1023 ->
  exists x,
    product val bits = Ok x /\
    if magnitude val + bits <=? 1024
    then exists n, round x = Ok n /\ nearest_even (float_value val * 2 ^ bits) n
    else is_finite x = false.
Proof.
  intros Hvalid Hfin Hb.
  destruct (product_operand val bits Hb) as (y & Hprod & Hy).
  exists (float_mul val y). split; [exact Hprod|].
  destruct val as [s|s| |s m e]; try discriminate.
  - cbn [magnitude float_value].
    leb_true (0 + bits) (1024).
    exists 0. split.
    + destruct Hy as [[-> _]|(k & _ & _ & ->)]; reflexivity.
    + apply (nearest_even_Qeq (inject_Z 0)); [|apply nearest_even_int].
      rewrite Qmult_0_l. reflexivity.
  - cbn [magnitude]. pose proof (valid_magnitude s m e Hvalid) as Hmag.
    destruct Hy as [[-> Hlow]|(k & Hk & Hcanon & ->)].
    + leb_true (Zpos (digits2_pos m) + e + bits) (1024).
      exists 0. split; [reflexivity|].
      apply (nearest_even_Qeq (dyadic (cond_Zopp s (Zpos m)) (e + bits)));
        [symmetry; apply float_value_shift|].
      apply nearest_even_small. lia.
    + pose proof (float_mul_pow2_round s m e k bits Hvalid Hk Hcanon) as H.
      destruct (Zpos (digits2_pos m) + e + bits <=? 1024).
      * destruct H as (n & Hn & Hnear). exists n. split; [exact Hn|].
        apply (nearest_even_Qeq (dyadic (cond_Zopp s (Zpos m)) (e + bits)));
          [symmetry; apply float_value_shift|exact Hnear].
      * rewrite H. reflexivity.
Qed.

Lemma quantize_product (val : float) (bits : Z) :
  quantize val bits = rbind (product val bits) round.
Proof.
  unfold quantize, product. destruct (pow2 bits); reflexivity.
Qed.

Lemma round_not_finite (x : float) :
  is_finite x = false -> exists e, round x = Raise e.
Proof.
  destruct x; simpl; try discriminate; intros _; eexists; reflexivity.
Qed.

Lemma quantize_large_bits (val : float) (bits : Z) :
  1023 < bits -> quantize val bits = Raise OverflowError.
Proof.
  intro Hb. unfold quantize, pow2.
  leb_true (0) (bits).
  cbn [rbind mul]. rewrite float_of_int_pow2 by lia.
  leb_false (bits) (1023).
  reflexivity.
Qed.

(** In range, the result is the integer nearest to the exact [val * 2^bits]. *)
Lemma quantize_exact (val : float) (bits : Z) :
  valid_binary prec emax val = true ->
  - 2 ^ 1023 < bits ->
  in_range val bits = true ->
  exists n,
    quantize val bits = Ok n /\
    nearest_even (float_value val * 2 ^ bits) n.
Proof.
  intros Hvalid Hb Hr. unfold in_range in Hr.
  apply andb_prop in Hr as [Hr Hmag]. apply andb_prop in Hr as [Hfin Hle].
  apply Z.leb_le in Hle.
  destruct (product_round val bits Hvalid Hfin ltac:(lia)) as (x & Hx & Hcase).
  rewrite Hmag in Hcase. destruct Hcase as (n & Hn & Hnear).
  exists n. split; [|exact Hnear].
  rewrite quantize_product, Hx. exact Hn.
Qed.

(** Out of range, an exception. *)
Lemma quantize_out_of_range (val : float) (bits : Z) :
  valid_binary prec emax val = true ->
  - 2 ^ 1023 < bits ->
  in_range val bits = false ->
  exists e, quantize val bits = Raise e.
Proof.
  intros Hvalid Hb Hr.
  destruct (Z.le_gt_cases bits 1023) as [Hle|Hgt];
    [|exists OverflowError; apply quantize_large_bits; lia].
  destruct (is_finite val) eqn:Hfin.
  - destruct (product_round val bits Hvalid Hfin ltac:(lia)) as (x & Hx & Hcase).
    unfold in_range in Hr. rewrite Hfin in Hr.
    replace (bits <=? 1023) with true in Hr by (symmetry; apply Z.leb_le; lia).
    cbn [andb] in Hr. rewrite Hr in Hcase.
    destruct (round_not_finite x Hcase) as [e He].
    exists e. rewrite quantize_product, Hx. exact He.
  - destruct (product_operand val bits ltac:(lia)) as (y & Hprod & Hy).
    rewrite quantize_product, Hprod. cbn [rbind].
    destruct val as [s|s| |s m e]; try discriminate;
      destruct Hy as [[-> _]|(k & _ & _ & ->)]; cbn; eexists; reflexivity.
Qed.

(** A finite float32 element becomes a valid double of the same value,
    far inside the range that [to_fixed_point] accepts at [bits = 16]. *)
Lemma item_float32_in_range (val : spec_float) :
  valid_binary 24 128 val = true ->
  is_finite val = true ->
  valid_binary prec emax (item_float32 val) = true /\
  in_range (item_float32 val) 16 = true /\
  (float_value (item_float32 val) == float_value val)%Q.
Proof.
  intros Hvalid Hfin.
  destruct val as [s|s| |s m e]; try discriminate.
  - repeat split; reflexivity.
  - unfold valid_binary, bounded, canonical_mantissa in Hvalid.
    apply andb_prop in Hvalid as [Hc Hb]. apply Z.eqb_eq in Hc. apply Z.leb_le in Hb.
    unfold fexp, emin in Hc.
    set (d := Zpos (digits2_pos m)) in *.
    assert (Hd : 1 <= d) by (unfold d; lia).
    assert (Hn : item_float32 (S754_finite s m e)
                 = S754_finite s (Pos.iter xO m (Z.to_pos (53 - d))) (d + e - 53)).
    { unfold item_float32, binary_normalize.
      assert (Hround : binary_round prec emax s m e
                       = S754_finite s (Pos.iter xO m (Z.to_pos (53 - d))) (d + e - 53)).
      { unfold binary_round, shl_align. fold d.
        assert (Hf : fexp prec emax (d + e) = d + e - 53)
          by (fexp_lia).
        rewrite Hf.
        destruct (d + e - 53 - e) as [|k|k] eqn:Hk; try lia.
        replace (Z.to_pos (53 - d)) with k by lia.
        assert (HM : Zpos (digits2_pos (Pos.iter xO m k)) = 53).
        { rewrite (digits2_shift _ m (Zpos k)); [fold d; lia|lia|apply iter_xO_pow2]. }
        rewrite (binary_round_aux_exact s _ (Pos.iter xO m k) _ 0);
          [|lia|lia|rewrite HM; fexp_lia].
        replace (d + e - 53 + 0 <=? emax - prec) with true
          by (symmetry; apply Z.leb_le; unfold emax, prec; lia).
        rewrite Z.add_0_r. reflexivity. }
      destruct s; exact Hround. }
    rewrite Hn.
    assert (HM : Zpos (digits2_pos (Pos.iter xO m (Z.to_pos (53 - d)))) = 53).
    { rewrite (digits2_shift _ m (Zpos (Z.to_pos (53 - d))));
        [fold d; lia|lia|apply iter_xO_pow2]. }
    split; [|split].
    + unfold valid_binary, bounded, canonical_mantissa. rewrite HM.
      apply andb_true_intro. split; [apply Z.eqb_eq|apply Z.leb_le];
        fexp_lia.
    + unfold in_range. cbn [is_finite magnitude]. rewrite HM.
      apply andb_true_intro. split; [reflexivity|apply Z.leb_le; lia].
    + cbn [float_value]. rewrite iter_xO_pow2, <- cond_Zopp_mul.
      replace (d + e - 53) with (e - Zpos (Z.to_pos (53 - d))) by lia.
      apply dyadic_scale. lia.
Qed.

End Quantization.

(** ** The emitted text *)

Section Text.

Local Open Scope string_scope.

(** [str] prints the number it is given: parsing the text gives it back. *)
Lemma str_faithful (v : Z) :
  option_map Z.of_int (NilZero.int_of_string (str v)) = Some v.
Proof.
  unfold str. rewrite NilZero.isi.
  - simpl. rewrite DecimalZ.of_to. reflexivity.
  - destruct v as [|p|p]; simpl; try discriminate.
    intro H. injection H as H. exact (Unsigned.to_uint_nonnil p H).
  - destruct v as [|p|p]; simpl; try discriminate.
    intro H. injection H as H. exact (Unsigned.to_uint_nonnil p H).
Qed.

Lemma str_negative (v : Z) :
  (v < 0)%Z -> str v = String "-" (str (- v)).
Proof.
  destruct v as [|p|p]; intro H; try lia. reflexivity.
Qed.

Lemma string_of_uint_digit (d : uint) :
  d <> Nil ->
  exists c rest, NilEmpty.string_of_uint d = String c rest /\ is_digit c = true.
Proof.
  destruct d; intro H; try congruence; simpl; eexists; eexists; split; reflexivity.
Qed.

Lemma str_nonnegative (v : Z) :
  (0 <= v)%Z -> exists c rest, str v = String c rest /\ is_digit c = true.
Proof.
  destruct v as [|p|p]; intro H; try lia.
  - exists "0"%char, "". split; reflexivity.
  - unfold str. cbn [Z.to_int NilZero.string_of_int].
    pose proof (Unsigned.to_uint_nonnil p) as Hn.
    destruct (string_of_uint_digit (Pos.to_uint p) Hn) as (c & rest & Hs & Hc).
    exists c, rest. split; [|exact Hc].
    unfold NilZero.string_of_uint. destruct (Pos.to_uint p); try congruence; exact Hs.
Qed.

Lemma no_newline_app (a b : string) :
  no_newline (a ++ b) = no_newline a && no_newline b.
Proof.
  induction a as [|c a IH]; simpl; [reflexivity|].
  rewrite IH, andb_assoc. reflexivity.
Qed.

Lemma no_newline_uint (d : uint) : no_newline (NilEmpty.string_of_uint d) = true.
Proof. induction d; simpl; auto. Qed.

Lemma no_newline_str (v : Z) : no_newline (str v) = true.
Proof.
  assert (H : forall d, no_newline (NilZero.string_of_uint d) = true).
  { intro d. pose proof (no_newline_uint d). destruct d; auto. }
  unfold str. destruct (Z.to_int v); simpl; auto.
Qed.

Lemma no_newline_literal (v : Z) : no_newline (literal v) = true.
Proof.
  unfold literal. rewrite !no_newline_app, no_newline_str.
  destruct (v <? 0)%Z; reflexivity.
Qed.

Lemma append_assoc (a b c : string) : (a ++ b) ++ c = a ++ b ++ c.
Proof. induction a as [|x a IH]; simpl; [reflexivity|]. rewrite IH. reflexivity. Qed.

Lemma append_nil_r (a : string) : a ++ "" = a.
Proof. induction a as [|x a IH]; simpl; [reflexivity|]. rewrite IH. reflexivity. Qed.

Lemma split_go_separator (cur t : string) :
  split_go cur (separator ++ t) = cur :: split_go "" t.
Proof. reflexivity. Qed.

(** A piece without a line break is read through, whatever follows it in
    text produced by [join]. *)
Lemma split_go_piece (lit : string) :
  no_newline lit = true ->
  forall cur tail,
    tail = "" \/ (exists t, tail = separator ++ t) ->
    split_go cur (lit ++ tail) = split_go (cur ++ lit) tail.
Proof.
  induction lit as [|c lit IH]; intros Hnl cur tail Htail.
  - simpl. rewrite append_nil_r. reflexivity.
  - simpl in Hnl. apply andb_prop in Hnl as [Hc Hnl].
    replace (cur ++ String c lit) with ((cur ++ String c "") ++ lit)
      by (rewrite append_assoc; reflexivity).
    rewrite <- (IH Hnl (cur ++ String c "") tail Htail).
    cbn [append split_go].
    destruct (Ascii.eqb c ","); [|reflexivity].
    destruct lit as [|c1 lit].
    + cbn [append].
      destruct Htail as [->|[t ->]]; [reflexivity|].
      reflexivity.
    + cbn [append]. simpl in Hnl. apply andb_prop in Hnl as [Hc1 _].
      apply negb_true_iff in Hc1. rewrite Hc1. cbn [andb].
      destruct (lit ++ tail); reflexivity.
Qed.

(** Splitting the joined text gives the pieces back, one per element. *)
Lemma split_join (lits : list string) :
  lits <> [] ->
  Forall (fun l => no_newline l = true) lits ->
  split_literals (join separator lits) = lits.
Proof.
  unfold split_literals, join.
  induction lits as [|l rest IH]; intros Hne Hall; [congruence|].
  inversion Hall as [|? ? Hl Hrest]; subst.
  destruct rest as [|l2 rest].
  - cbn [concat]. rewrite <- (append_nil_r l) at 1.
    rewrite split_go_piece by auto. reflexivity.
  - cbn [concat]. cbn [concat] in IH.
    rewrite split_go_piece; [|exact Hl|right; eexists; reflexivity].
    rewrite split_go_separator. cbn [append].
    rewrite IH; [reflexivity|discriminate|exact Hrest].
Qed.

End Text.

(** ** Running the three functions *)

Section Runs.

Lemma traverse_Forall2 {A B : Type} (g : A -> result B) (l : list A) (ys : list B) :
  traverse g l = Ok ys <-> Forall2 (fun x y => g x = Ok y) l ys.
Proof.
  revert ys. induction l as [|x rest IH]; intro ys; simpl.
  - split.
    + intros [= <-]. constructor.
    + intro H. inversion H. reflexivity.
  - split.
    + destruct (g x) as [y|e] eqn:Hx; simpl; [|discriminate].
      destruct (traverse g rest) as [ys'|e] eqn:Hrest; simpl; [|discriminate].
      intros [= <-]. constructor; [exact Hx|]. apply IH. reflexivity.
    + intro H. inversion H as [|? y ? ys' Hx Hrest]; subst.
      rewrite Hx. simpl. apply IH in Hrest. rewrite Hrest. reflexivity.
Qed.

Lemma traverse_returns {A B : Type} (g : A -> result B) (l : list A) :
  (exists ys, traverse g l = Ok ys) <-> Forall (fun x => exists y, g x = Ok y) l.
Proof.
  induction l as [|x rest IH]; simpl.
  - split; [constructor|]. intros _. eexists. reflexivity.
  - split.
    + intros [ys H].
      destruct (g x) as [y|e] eqn:Hx; simpl in H; [|discriminate].
      destruct (traverse g rest) as [ys'|e] eqn:Hrest; simpl in H; [|discriminate].
      constructor; [exists y; exact Hx|]. apply IH. eexists. reflexivity.
    + intro H. inversion H as [|? ? [y Hx] Hrest]; subst.
      apply IH in Hrest as [ys Hys]. rewrite Hx, Hys. simpl. eexists. reflexivity.
Qed.

Lemma to_fixed_point_Ok (val : float) (bits v : Z) (w : World) :
  to_fixed_point val bits w = (Ok v, w) <-> quantize val bits = Ok v.
Proof.
  rewrite to_fixed_point_run. split; [intros [= H]; exact H|intros ->; reflexivity].
Qed.

Lemma quantized_Forall2 (data : list element) (vs : list Z) (w : World) :
  Forall2 (fun x v => to_fixed_point (item x) 16 w = (Ok v, w)) data vs <->
  traverse (fun val => quantize (item val) 16) data = Ok vs.
Proof.
  rewrite traverse_Forall2. split; intro H.
  - eapply Forall2_impl; [|exact H]. intros x v Hx. apply to_fixed_point_Ok in Hx. exact Hx.
  - eapply Forall2_impl; [|exact H]. intros x v Hx. apply to_fixed_point_Ok. exact Hx.
Qed.

Lemma returns_to_fixed_point (val : float) (bits : Z) (w : World) :
  returns (to_fixed_point val bits) w <-> exists n, quantize val bits = Ok n.
Proof.
  unfold returns. rewrite to_fixed_point_run. reflexivity.
Qed.

Lemma returns_mnist (data : list element) (w : World) :
  returns (mnist_image_to_fixed_point data) w <->
  Forall (fun x => returns (to_fixed_point (item x) 16) w) data.
Proof.
  unfold returns at 1. rewrite mnist_image_to_fixed_point_run. cbn [fst].
  rewrite traverse_returns.
  split; apply Forall_impl; intros x Hx;
    apply (returns_to_fixed_point (item x) 16 w); exact Hx.
Qed.

Lemma returns_generate (data : list element) (w : World) :
  returns (generate_input_cairo data) w <->
  Forall (fun x => returns (to_fixed_point (item x) 16) w) data.
Proof.
  rewrite <- returns_mnist. unfold returns.
  rewrite generate_input_cairo_run, mnist_image_to_fixed_point_run. cbn [fst].
  destruct (traverse _ data) as [vs|e]; simpl.
  - split; intros _; eexists; reflexivity.
  - split; intros [a H]; discriminate.
Qed.

Lemma generate_input_cairo_Ok (data : list element) (vs : list Z) (w : World) :
  Forall2 (fun x v => to_fixed_point (item x) 16 w = (Ok v, w)) data vs ->
  generate_input_cairo data w = (Ok (serialize vs), w).
Proof.
  intro H. apply quantized_Forall2 in H.
  rewrite generate_input_cairo_run, H. reflexivity.
Qed.

Lemma mnist_image_to_fixed_point_Ok (data : list element) (vs : list Z) (w : World) :
  mnist_image_to_fixed_point data w = (Ok vs, w) <->
  Forall2 (fun x v => to_fixed_point (item x) 16 w = (Ok v, w)) data vs.
Proof.
  rewrite quantized_Forall2, mnist_image_to_fixed_point_run.
  split; [intros [= H]; exact H|intros ->; reflexivity].
Qed.

End Runs.

(** ** What a call does to the interpreter's state *)

Section Calls.

Local Open Scope string_scope.




Lemma assoc_get_set_same {V : Type} (k : string) (v : V) (l : list (string * V)) :
  assoc_get k (assoc_set k v l) = Some v.
Proof.
  induction l as [|[k' v'] l IH]; cbn [assoc_set assoc_get].
  - rewrite String.eqb_refl. reflexivity.
  - destruct (String.eqb k k') eqn:Hk; cbn [assoc_get].
    + rewrite String.eqb_refl. reflexivity.
    + rewrite Hk. exact IH.
Qed.

Lemma assoc_get_set_other {V : Type} (k k0 : string) (v : V) (l : list (string * V)) :
  k0 <> k -> assoc_get k0 (assoc_set k v l) = assoc_get k0 l.
Proof.
  intro Hne. apply String.eqb_neq in Hne.
  induction l as [|[k' v'] l IH]; cbn [assoc_set assoc_get].
  - rewrite Hne. reflexivity.
  - destruct (String.eqb k k') eqn:Hk; cbn [assoc_get].
    + apply String.eqb_eq in Hk. subst k'. rewrite Hne. reflexivity.
    + rewrite IH. reflexivity.
Qed.

Lemma assoc_set_set {V : Type} (k : string) (v v0 : V) (l : list (string * V)) :
  assoc_set k v (assoc_set k v0 l) = assoc_set k v l.
Proof.
  induction l as [|[k' v'] l IH]; cbn [assoc_set].
  - rewrite String.eqb_refl. reflexivity.
  - destruct (String.eqb k k') eqn:Hk; cbn [assoc_set].
    + rewrite String.eqb_refl. reflexivity.
    + rewrite Hk, IH. reflexivity.
Qed.





End Calls.

(** ** Statements about the cell *)

Section Claims.

Local Open Scope string_scope.



Lemma serialize_literals_text (vs : list Z) : serialize vs = literals_text vs.
Proof.
  unfold serialize, join.
  induction vs as [|v rest IH]; [reflexivity|].
  destruct rest as [|v2 rest].
  - reflexivity.
  - cbn [map] in IH |- *.
    change (concat separator (literal v :: literal v2 :: map literal rest))
      with (literal v ++ separator ++ concat separator (literal v2 :: map literal rest)).
    rewrite IH. unfold literal. rewrite !append_assoc. reflexivity.
Qed.

Lemma Forall2_nth_error {A B : Type} (R : A -> B -> Prop) (l1 : list A) (l2 : list B) :
  Forall2 R l1 l2 ->
  forall i x, nth_error l1 i = Some x -> exists y, nth_error l2 i = Some y /\ R x y.
Proof.
  induction 1 as [|a b l1 l2 Hab Hrest IH]; intros i x Hi.
  - destruct i; discriminate.
  - destruct i as [|i]; simpl in *.
    + injection Hi as <-. exists b. split; [reflexivity|exact Hab].
    + apply IH. exact Hi.
Qed.

Lemma in_range_quantized (data : list element) (w : World) :
  Forall (fun x => valid_binary prec emax (item x) = true /\
                   in_range (item x) 16 = true) data ->
  exists vs, Forall2 (fun x v => to_fixed_point (item x) 16 w = (Ok v, w)) data vs.
Proof.
  induction 1 as [|x data [Hv Hx] _ (vs & Hvs)].
  - exists []. constructor.
  - destruct (quantize_exact (item x) 16 Hv ltac:(vm_compute; reflexivity) Hx)
      as (n & Hn & _).
    exists (n :: vs). constructor; [|exact Hvs].
    apply to_fixed_point_Ok. exact Hn.
Qed.

Lemma returns_in_range_only (x : float) (w : World) :
  valid_binary prec emax x = true ->
  returns (to_fixed_point x 16) w -> in_range x 16 = true.
Proof.
  intros Hv [n Hn]. rewrite to_fixed_point_run in Hn. cbn [fst] in Hn.
  destruct (in_range x 16) eqn:Hr; [reflexivity|].
  destruct (quantize_out_of_range x 16 Hv ltac:(vm_compute; reflexivity) Hr) as [e He].
  congruence.
Qed.

(** C2, as the code has it: for a sequence of finite values of magnitude
    below [2^1008], [generate_input_cairo] returns the text made of one
    [FixedTrait::<FP16x16>::new(v, s)] per element, [v] being what
    [to_fixed_point] returns for the element with 16 bits and [s] being
    [true] for [v < 0] and [false] otherwise, consecutive literals separated
    by a comma, a line break and a space.  On no other sequence of floats
    does it return. *)
Theorem generate_input_cairo_text (data : list element) (w : World) :
  Forall (fun x => valid_binary prec emax (item x) = true /\
                   in_range (item x) 16 = true) data ->
  (exists vs,
     Forall2 (fun x v => to_fixed_point (item x) 16 w = (Ok v, w)) data vs /\
     generate_input_cairo data w = (Ok (literals_text vs), w)) /\
  (forall data',
     Forall (fun x => valid_binary prec emax (item x) = true) data' ->
     returns (generate_input_cairo data') w ->
     Forall (fun x => in_range (item x) 16 = true) data').
Proof.
  intro H. split.
  - destruct (in_range_quantized data w H) as (vs & Hvs).
    exists vs. split; [exact Hvs|].
    rewrite <- serialize_literals_text. apply generate_input_cairo_Ok. exact Hvs.
  - intros data' Hvalid Hret. apply returns_generate in Hret.
    rewrite Forall_forall in Hvalid, Hret. apply Forall_forall. intros x Hx.
    apply (returns_in_range_only (item x) w); [apply Hvalid|apply Hret]; exact Hx.
Qed.

(** The text splits back into the literals of the values, in order. *)
Lemma emitted_literals (data : list element) (vs : list Z) (w : World) :
  Forall2 (fun x v => to_fixed_point (item x) 16 w = (Ok v, w)) data vs ->
  exists text,
    generate_input_cairo data w = (Ok text, w) /\
    match data with
    | [] => text = ""
    | _ :: _ =>
        List.length (split_literals text) = List.length data /\
        forall i v, nth_error vs i = Some v ->
          nth_error (split_literals text) i = Some (literal v)
    end.
Proof.
  intro H.
  exists (serialize vs). split; [apply generate_input_cairo_Ok; exact H|].
  destruct H as [|x v data vs Hx Hrest]; [reflexivity|].
  assert (Hsplit : split_literals (serialize (v :: vs)) = map literal (v :: vs)).
  { apply split_join; [discriminate|].
    apply Forall_forall. intros l Hl. apply in_map_iff in Hl as (v' & <- & _).
    apply no_newline_literal. }
  rewrite Hsplit. split.
  - rewrite length_map. cbn [List.length]. f_equal. symmetry. exact (Forall2_length Hrest).
  - intros i v' Hi. apply map_nth_error. exact Hi.
Qed.

(** C8, as the code has it: for a list of [n] finite values of magnitude
    below [2^1008], [mnist_image_to_fixed_point] returns [n] values, the one
    at each index being what [to_fixed_point] returns for the element at
    that index, and the text of [generate_input_cairo] splits at the
    separator into [n] pieces, the one at index [i] being
    [FixedTrait::<FP16x16>::new(v, s)] for the value [v] at index [i]; for
    the empty list the text is empty. *)
Theorem length_and_order_preserved (data : list element) (w : World) :
  Forall (fun x => valid_binary prec emax (item x) = true /\
                   in_range (item x) 16 = true) data ->
  exists vs,
    mnist_image_to_fixed_point data w = (Ok vs, w) /\
    List.length vs = List.length data /\
    (forall i x, nth_error data i = Some x ->
       exists v, nth_error vs i = Some v /\ to_fixed_point (item x) 16 w = (Ok v, w)) /\
    exists text,
      generate_input_cairo data w = (Ok text, w) /\
      match data with
      | [] => text = ""
      | _ :: _ =>
          List.length (split_literals text) = List.length data /\
          forall i v, nth_error vs i = Some v ->
            nth_error (split_literals text) i
            = Some ("FixedTrait::<FP16x16>::new(" ++ str v ++ ", "
                      ++ (if (v <? 0)%Z then "true" else "false") ++ ")")
      end.
Proof.
  intro Hdata. destruct (in_range_quantized data w Hdata) as (vs & H).
  exists vs.
  split; [apply mnist_image_to_fixed_point_Ok; exact H|].
  split; [symmetry; exact (Forall2_length H)|].
  split; [exact (Forall2_nth_error _ _ _ H)|].
  exact (emitted_literals data vs w H).
Qed.

Lemma negative_text_str (v : Z) : negative_text (str v) = (v <? 0)%Z.
Proof.
  destruct v as [|p|p]; [reflexivity| |reflexivity].
  destruct (str_nonnegative (Zpos p) ltac:(lia)) as (c & rest & Hs & Hc).
  rewrite Hs. cbn [negative_text].
  destruct (Ascii.eqb_spec c "-") as [->|]; [discriminate Hc|reflexivity].
Qed.

(** C6: for an element of [data] whose quantization [v] is negative, the
    literal emitted at its position is [FixedTrait::<FP16x16>::new(-d, true)]
    with [d] the decimal digits of [-v]: the first argument is the text of
    the signed [v] itself, not of its absolute value.  For every value the
    flag is [true] exactly when the first argument carries a minus sign. *)
Theorem negative_value_emitted_signed
    (data : list element) (vs : list Z) (w : World) (i : nat) (v : Z) :
  Forall2 (fun x v => to_fixed_point (item x) 16 w = (Ok v, w)) data vs ->
  nth_error vs i = Some v ->
  (v < 0)%Z ->
  (exists text,
     generate_input_cairo data w = (Ok text, w) /\
     nth_error (split_literals text) i
     = Some ("FixedTrait::<FP16x16>::new(-" ++ str (- v) ++ ", true)")) /\
  (exists c rest, str (- v) = String c rest /\ is_digit c = true) /\
  option_map Z.of_int (NilZero.int_of_string (str v)) = Some v /\
  str v <> str (Z.abs v) /\
  (forall u, literal u
             = "FixedTrait::<FP16x16>::new(" ++ str u ++ ", "
                 ++ (if negative_text (str u) then "true" else "false") ++ ")").
Proof.
  intros H Hi Hv.
  destruct (emitted_literals data vs w H) as (text & Hgen & Hsplit).
  split; [|split; [|split; [|split]]].
  - exists text. split; [exact Hgen|].
    destruct data as [|x data].
    + inversion H; subst. destruct i; discriminate.
    + destruct Hsplit as [_ Hnth]. rewrite (Hnth i v Hi).
      unfold literal. rewrite str_negative by exact Hv.
      replace (v <? 0)%Z with true by (symmetry; apply Z.ltb_lt; exact Hv).
      reflexivity.
  - apply str_nonnegative. lia.
  - apply str_faithful.
  - rewrite str_negative by exact Hv.
    destruct (str_nonnegative (Z.abs v) ltac:(lia)) as (c & rest & Hs & Hc).
    rewrite Hs. intro Heq. injection Heq as <- _. discriminate Hc.
  - intro u. unfold literal. rewrite negative_text_str. reflexivity.
Qed.

Lemma sixteen_in_bounds : (- 2 ^ 1023 < 16)%Z.
Proof. vm_compute. reflexivity. Qed.

Lemma in_range_returns (x : float) (bits : Z) (w : World) :
  valid_binary prec emax x = true ->
  (- 2 ^ 1023 < bits)%Z ->
  (in_range x bits = true <-> returns (to_fixed_point x bits) w).
Proof.
  intros Hvalid Hb. rewrite returns_to_fixed_point. split.
  - intro Hr. destruct (quantize_exact x bits Hvalid Hb Hr) as (n & Hn & _).
    exists n. exact Hn.
  - intros [n Hn]. destruct (in_range x bits) eqn:Hr; [reflexivity|].
    destruct (quantize_out_of_range x bits Hvalid Hb Hr) as [e He]. congruence.
Qed.

(** C1, as the code has it: for a finite [val] and [-2^1023 < bits <= 1023]
    with [|val| * 2^bits] below [2^1024], [to_fixed_point val bits] returns
    the one integer nearest to the exact [val * 2^bits], a tie going to the
    even neighbour; whenever the float product is finite, for any [bits],
    the result is the integer nearest to that product.
    [mnist_image_to_fixed_point] does this to each element with
    [bits = 16]. *)
Theorem to_fixed_point_quantizes
    (val : float) (bits : Z) (data : list element) (w : World) :
  valid_binary prec emax val = true ->
  (- 2 ^ 1023 < bits)%Z ->
  in_range val bits = true ->
  Forall (fun x => valid_binary prec emax (item x) = true /\
                   in_range (item x) 16 = true) data ->
  (exists n,
     to_fixed_point val bits w = (Ok n, w) /\
     nearest_even (float_value val * 2 ^ bits) n /\
     forall n', nearest_even (float_value val * 2 ^ bits) n' -> n' = n) /\
  (forall b x,
     product val b = Ok x -> is_finite x = true ->
     exists n, to_fixed_point val b w = (Ok n, w) /\ nearest_even (float_value x) n) /\
  (exists vs,
     mnist_image_to_fixed_point data w = (Ok vs, w) /\
     Forall2 (fun x v => to_fixed_point (item x) 16 w = (Ok v, w) /\
                         nearest_even (float_value (item x) * 2 ^ 16) v) data vs).
Proof.
  intros Hvalid Hb Hr Hdata. split; [|split].
  - destruct (quantize_exact val bits Hvalid Hb Hr) as (n & Hn & Hnear).
    exists n. split; [apply to_fixed_point_Ok; exact Hn|]. split; [exact Hnear|].
    intros n' Hn'. exact (nearest_even_unique _ _ _ Hn' Hnear).
  - intros b x Hx Hfin. destruct (round_spec x Hfin) as (n & Hn & Hnear).
    exists n. split; [|exact Hnear].
    apply to_fixed_point_Ok. rewrite quantize_product, Hx. exact Hn.
  - clear Hvalid Hr. induction Hdata as [|x data [Hv Hx] _ IH].
    + exists []. split; [reflexivity|constructor].
    + destruct IH as (vs & Hvs & Hall).
      destruct (quantize_exact (item x) 16 Hv sixteen_in_bounds Hx) as (n & Hn & Hnear).
      apply to_fixed_point_Ok with (w := w) in Hn.
      exists (n :: vs). split.
      * apply mnist_image_to_fixed_point_Ok. constructor; [exact Hn|].
        eapply Forall2_impl; [|exact Hall]. intros a b [Hab _]. exact Hab.
      * constructor; [split; assumption|exact Hall].
Qed.

(** C3, as the code has it: the functions handle no error, so an exception
    of a built-in reaches the caller.  On finite inputs with [|val|] below
    [2^1008], which every finite element of a float32 tensor is, all three
    return; on any other input [to_fixed_point val 16] raises, and so do the
    two list functions on a list that holds it. *)
Theorem returns_in_range (data : list element) (w : World) :
  Forall (fun x => valid_binary prec emax (item x) = true) data ->
  Forall (fun x => in_range (item x) 16 = true) data ->
  Forall (fun x => returns (to_fixed_point (item x) 16) w) data /\
  returns (mnist_image_to_fixed_point data) w /\
  returns (generate_input_cairo data) w /\
  (forall x, valid_binary prec emax (item x) = true -> in_range (item x) 16 = false ->
     (exists e, to_fixed_point (item x) 16 w = (Raise e, w)) /\
     forall data', In x data' ->
       ~ returns (mnist_image_to_fixed_point data') w /\
       ~ returns (generate_input_cairo data') w) /\
  (forall pixels,
     Forall (fun x => exists p, item x = item_float32 p /\
                                valid_binary 24 128 p = true /\
                                is_finite p = true) pixels ->
     returns (generate_input_cairo pixels) w).
Proof.
  intros Hvalid Hr.
  assert (Hall : Forall (fun x => returns (to_fixed_point (item x) 16) w) data).
  { apply Forall_forall. intros x Hx.
    rewrite Forall_forall in Hvalid, Hr.
    apply in_range_returns;
      [apply Hvalid; exact Hx|exact sixteen_in_bounds|apply Hr; exact Hx]. }
  split; [exact Hall|]. split; [apply returns_mnist; exact Hall|].
  split; [apply returns_generate; exact Hall|].
  split.
  - intros x Hv Hout.
    assert (Hno : ~ returns (to_fixed_point (item x) 16) w).
    { intro H. apply in_range_returns in H;
        [congruence|exact Hv|exact sixteen_in_bounds]. }
    split.
    + destruct (quantize_out_of_range (item x) 16 Hv sixteen_in_bounds Hout) as [e He].
      exists e. rewrite to_fixed_point_run, He. reflexivity.
    + intros data' Hin. split; intro H.
      * apply returns_mnist in H. rewrite Forall_forall in H. exact (Hno (H x Hin)).
      * apply returns_generate in H. rewrite Forall_forall in H. exact (Hno (H x Hin)).
  - intros pixels Hpix. apply returns_generate.
    eapply Forall_impl; [|exact Hpix]. intros x (p & Hx & Hv & Hf).
    destruct (item_float32_in_range p Hv Hf) as (Hv' & Hr' & _).
    rewrite Hx. apply in_range_returns; [exact Hv'|exact sixteen_in_bounds|exact Hr'].
Qed.

Lemma nearest_even_half (n : Z) :
  nearest_even (inject_Z n + (1 # 2)) (if Z.even n then n else n + 1)%Z.
Proof.
  apply (nearest_even_Qeq ((2 * n + 1) # 2)).
  - unfold inject_Z, Qplus, Qeq. cbn [Qnum Qden]. lia.
  - apply nearest_even_Z. destruct (Z.even n) eqn:He.
    + split; [lia|]. intros _. exact He.
    + split; [lia|]. intros _. rewrite Z.even_add, He. reflexivity.
Qed.

Lemma half_integer_finite (x : float) (n : Z) :
  (float_value x == inject_Z n + (1 # 2))%Q -> is_finite x = true.
Proof.
  destruct x as [s|s| |s m e]; cbn [float_value is_finite]; intro H;
    try reflexivity;
    unfold inject_Z, Qplus, Qeq in H; cbn [Qnum Qden] in H; lia.
Qed.

Lemma half_integer_in_range (val : float) (bits n : Z) :
  valid_binary prec emax val = true ->
  is_finite val = true ->
  (bits <= 1023)%Z ->
  (float_value val * 2 ^ bits == inject_Z n + (1 # 2))%Q ->
  in_range val bits = true.
Proof.
  intros Hvalid Hfin Hb Hhalf. unfold in_range. rewrite Hfin.
  leb_true (bits) (1023).
  cbn [andb]. apply Z.leb_le.
  destruct val as [s|s| |s m e]; try discriminate; cbn [magnitude]; [lia|].
  rewrite float_value_shift in Hhalf.
  destruct (Z.lt_ge_cases (e + bits) 0) as [Hneg|Hpos].
  - unfold valid_binary, bounded, canonical_mantissa in Hvalid.
    apply andb_prop in Hvalid as [Hc _]. apply Z.eqb_eq in Hc.
    unfold fexp, emin, prec, emax in Hc. lia.
  - exfalso. unfold dyadic in Hhalf.
    replace (0 <=? e + bits)%Z with true in Hhalf by (symmetry; apply Z.leb_le; lia).
    unfold inject_Z, Qplus, Qeq in Hhalf. cbn [Qnum Qden] in Hhalf. lia.
Qed.

(** Beyond [bits = 1023] there is no product at all: [2**bits] does not
    convert, even where the exact value would be one half. *)
Lemma no_product_beyond_1023 :
  product f_tiny 1073 = Raise OverflowError /\
  to_fixed_point f_tiny 1073 empty_world = (Raise OverflowError, empty_world).
Proof. split; vm_compute; reflexivity. Qed.

(** C7: when [val * (2**bits)] lies exactly halfway between the integers
    [n] and [n + 1], [to_fixed_point] returns the even one of the two.  The
    product is the float that Python computes; for [bits] between [-2^1023]
    and [1023] it may as well be the exact product, which a double scaled
    by a power of two represents whenever it is a half-integer.  So
    [to_fixed_point(0.5, 0)] is [0] and [to_fixed_point(1.5, 0)] is [2],
    where rounding half up would give [1] and [2]. *)
Theorem ties_go_to_even (val : float) (bits n : Z) (w : World) :
  (exists x, product val bits = Ok x /\
             (float_value x == inject_Z n + (1 # 2))%Q) \/
  (valid_binary prec emax val = true /\ is_finite val = true /\
   (- 2 ^ 1023 < bits <= 1023)%Z /\
   (float_value val * 2 ^ bits == inject_Z n + (1 # 2))%Q) ->
  to_fixed_point val bits w = (Ok (if Z.even n then n else n + 1)%Z, w) /\
  to_fixed_point f_half 0 w = (Ok 0%Z, w) /\
  to_fixed_point f_one_half 0 w = (Ok 2%Z, w).
Proof.
  intro H. split; [|split; rewrite to_fixed_point_run; reflexivity].
  apply to_fixed_point_Ok.
  destruct H as [(x & Hx & Hhalf)|(Hvalid & Hfin & Hb & Hhalf)].
  - pose proof (half_integer_finite x n Hhalf) as Hfin.
    destruct (round_spec x Hfin) as (r & Hr & Hnear).
    rewrite quantize_product, Hx. cbn [rbind]. rewrite Hr.
    f_equal. apply (nearest_even_unique (float_value x)); [exact Hnear|].
    apply (nearest_even_Qeq (inject_Z n + (1 # 2))); [symmetry; exact Hhalf|].
    apply nearest_even_half.
  - pose proof (half_integer_in_range val bits n Hvalid Hfin ltac:(lia) Hhalf) as Hr.
    destruct (quantize_exact val bits Hvalid ltac:(lia) Hr) as (r & -> & Hnear).
    f_equal. apply (nearest_even_unique (float_value val * 2 ^ bits)); [exact Hnear|].
    apply (nearest_even_Qeq (inject_Z n + (1 # 2))); [symmetry; exact Hhalf|].
    apply nearest_even_half.
Qed.

End Claims.

(** ** Further properties of the three functions *)

Section Symmetry.

Lemma binary_round_aux_opp (s : bool) (M E : Z) (l : location) :
  binary_round_aux prec emax (negb s) M E l
  = SFopp (binary_round_aux prec emax s M E l).
Proof.
  unfold binary_round_aux.
  destruct (shr_fexp prec emax M E l) as [r1 e1].
  destruct (shr_fexp prec emax _ e1 loc_Exact) as [r2 e2].
  destruct (shr_m r2); [reflexivity| |reflexivity].
  destruct (e2 <=? emax - prec); reflexivity.
Qed.

Lemma float_mul_opp (x y : float) :
  float_mul (SFopp x) y = SFopp (float_mul x y).
Proof.
  unfold float_mul.
  destruct x as [sx|sx| |sx mx ex], y as [sy|sy| |sy my ey];
    cbn [SFmul SFopp]; try reflexivity;
    try (rewrite negb_xorb_l; reflexivity).
  rewrite <- negb_xorb_l. apply binary_round_aux_opp.
Qed.

Lemma mul_opp (x : float) (p : num) :
  mul (SFopp x) p = rmap SFopp (mul x p).
Proof.
  destruct p as [n|f]; cbn [mul].
  - destruct (float_of_int n) as [g|e]; cbn [rbind rmap]; [|reflexivity].
    rewrite float_mul_opp. reflexivity.
  - cbn [rmap]. rewrite float_mul_opp. reflexivity.
Qed.

Lemma round_opp (x : float) : round (SFopp x) = rmap Z.opp (round x).
Proof.
  destruct x as [s|s| |s m e]; cbn [SFopp round rmap]; try reflexivity.
  destruct s; cbn [negb cond_Zopp]; f_equal; lia.
Qed.

(** Quantization is odd: negating the value negates the result, and an
    input raises exactly when its opposite does, with the same exception.
    This holds for every float and every [bits]. *)
Theorem to_fixed_point_opp (val : float) (bits : Z) (w : World) :
  to_fixed_point (SFopp val) bits w
  = (rmap Z.opp (fst (to_fixed_point val bits w)), w).
Proof.
  rewrite !to_fixed_point_run. cbn [fst]. f_equal.
  unfold quantize. destruct (pow2 bits) as [p|e]; cbn [rbind rmap]; [|reflexivity].
  rewrite mul_opp. destruct (mul val p) as [x|e]; cbn [rbind rmap]; [|reflexivity].
  apply round_opp.
Qed.

End Symmetry.

Section Order.

(** Rounding to nearest, ties to even, keeps the order. *)
Lemma nearest_even_mono (q1 q2 : Q) (n1 n2 : Z) :
  (q1 <= q2)%Q -> nearest_even q1 n1 -> nearest_even q2 n2 -> n1 <= n2.
Proof.
  destruct q1 as [a1 b1], q2 as [a2 b2]. unfold Qle. cbn [Qnum Qden].
  rewrite !nearest_even_Z. intros Hle [H1 E1] [H2 E2].
  destruct (Z.le_gt_cases n1 n2) as [|Hgt]; [assumption|exfalso].
  assert (L1 : (2 * n1 - 1) * Zpos b1 <= 2 * a1) by lia.
  assert (L2 : 2 * a2 <= (2 * n2 + 1) * Zpos b2) by lia.
  assert (M1 : (2 * n1 - 1) * Zpos b1 * Zpos b2 <= 2 * a1 * Zpos b2)
    by (apply Z.mul_le_mono_nonneg_r; lia).
  assert (M2 : 2 * a2 * Zpos b1 <= (2 * n2 + 1) * Zpos b2 * Zpos b1)
    by (apply Z.mul_le_mono_nonneg_r; lia).
  assert (P : 0 < Zpos b1 * Zpos b2) by lia.
  assert (Hn : n1 = n2 + 1) by nia.
  subst n1.
  assert (T1 : 2 * a1 = (2 * n2 + 1) * Zpos b1) by nia.
  assert (T2 : 2 * a2 = (2 * n2 + 1) * Zpos b2) by nia.
  assert (Z.even (n2 + 1) = true) by (apply E1; lia).
  assert (Z.even n2 = true) by (apply E2; lia).
  rewrite Z.even_add in *. destruct (Z.even n2); discriminate.
Qed.

(** A value between two integers rounds to an integer between them. *)
Lemma nearest_even_between (q : Q) (n lo hi : Z) :
  (inject_Z lo <= q)%Q -> (q <= inject_Z hi)%Q -> nearest_even q n -> lo <= n <= hi.
Proof.
  intros Hlo Hhi Hn. split.
  - exact (nearest_even_mono _ _ _ _ Hlo (nearest_even_int lo) Hn).
  - exact (nearest_even_mono _ _ _ _ Hhi Hn (nearest_even_int hi)).
Qed.

Lemma scale_le (q1 q2 : Q) (bits : Z) :
  (q1 <= q2)%Q -> (q1 * 2 ^ bits <= q2 * 2 ^ bits)%Q.
Proof.
  intro H. apply Qmult_le_compat_r; [exact H|].
  apply Qpower_0_le. discriminate.
Qed.

(** Quantization is monotone: of two values in range, the larger one does
    not get the smaller integer. *)
Theorem to_fixed_point_monotone (val1 val2 : float) (bits n1 n2 : Z) (w : World) :
  valid_binary prec emax val1 = true ->
  valid_binary prec emax val2 = true ->
  (float_value val1 <= float_value val2)%Q ->
  to_fixed_point val1 bits w = (Ok n1, w) ->
  to_fixed_point val2 bits w = (Ok n2, w) ->
  - 2 ^ 1023 < bits ->
  n1 <= n2.
Proof.
  intros Hv1 Hv2 Hle H1 H2 Hb.
  assert (R1 : in_range val1 bits = true).
  { destruct (in_range val1 bits) eqn:Hr; [reflexivity|].
    destruct (quantize_out_of_range val1 bits Hv1 Hb Hr) as [e He].
    apply to_fixed_point_Ok in H1. congruence. }
  assert (R2 : in_range val2 bits = true).
  { destruct (in_range val2 bits) eqn:Hr; [reflexivity|].
    destruct (quantize_out_of_range val2 bits Hv2 Hb Hr) as [e He].
    apply to_fixed_point_Ok in H2. congruence. }
  destruct (quantize_exact val1 bits Hv1 Hb R1) as (m1 & Hm1 & N1).
  destruct (quantize_exact val2 bits Hv2 Hb R2) as (m2 & Hm2 & N2).
  apply to_fixed_point_Ok in H1, H2.
  assert (m1 = n1) by congruence. assert (m2 = n2) by congruence. subst m1 m2.
  exact (nearest_even_mono _ _ _ _ (scale_le _ _ bits Hle) N1 N2).
Qed.

(** No rounding error on the grid: when [val * 2^bits] is an integer [k],
    the result is [k]. *)
Theorem to_fixed_point_exact_on_grid (val : float) (bits k : Z) (w : World) :
  valid_binary prec emax val = true ->
  in_range val bits = true ->
  - 2 ^ 1023 < bits ->
  (float_value val * 2 ^ bits == inject_Z k)%Q ->
  to_fixed_point val bits w = (Ok k, w).
Proof.
  intros Hv Hr Hb Hk.
  destruct (quantize_exact val bits Hv Hb Hr) as (n & Hn & Hnear).
  apply to_fixed_point_Ok. rewrite Hn. f_equal.
  apply (nearest_even_unique (inject_Z k)); [|apply nearest_even_int].
  apply (nearest_even_Qeq (float_value val * 2 ^ bits)); assumption.
Qed.

(** The same for any integer bounds on the scaled value: rounding does not
    leave an interval with integer ends. *)
Theorem to_fixed_point_between (val : float) (bits n lo hi : Z) (w : World) :
  valid_binary prec emax val = true ->
  - 2 ^ 1023 < bits ->
  to_fixed_point val bits w = (Ok n, w) ->
  (inject_Z lo <= float_value val * 2 ^ bits)%Q ->
  (float_value val * 2 ^ bits <= inject_Z hi)%Q ->
  lo <= n <= hi.
Proof.
  intros Hv Hb Hn Hlo Hhi.
  assert (R : in_range val bits = true).
  { destruct (in_range val bits) eqn:Hr; [reflexivity|].
    destruct (quantize_out_of_range val bits Hv Hb Hr) as [e He].
    apply to_fixed_point_Ok in Hn. congruence. }
  destruct (quantize_exact val bits Hv Hb R) as (m & Hm & Hnear).
  apply to_fixed_point_Ok in Hn. assert (m = n) by congruence. subst m.
  exact (nearest_even_between _ _ _ _ Hlo Hhi Hnear).
Qed.

Lemma unit_interval_in_range (x : float) :
  valid_binary prec emax x = true ->
  is_finite x = true ->
  (0 <= float_value x)%Q -> (float_value x <= 1)%Q ->
  in_range x 16 = true.
Proof.
  intros Hv Hf H0 H1.
  destruct x as [s|s| |s m e]; try discriminate; [reflexivity|].
  unfold in_range. cbn [is_finite magnitude andb].
  leb_true (16) (1023). cbn [andb]. apply Z.leb_le.
  unfold valid_binary, bounded, canonical_mantissa in Hv.
  apply andb_prop in Hv as [Hc _]. apply Z.eqb_eq in Hc.
  unfold fexp, emin, prec, emax in Hc.
  destruct (Z.le_gt_cases e 0) as [|Hpos]; [lia|exfalso].
  assert (Hp : 2 ^ 1 <= 2 ^ e) by (apply Z.pow_le_mono_r; lia).
  change (2 ^ 1) with 2 in Hp.
  cbn [float_value] in H0, H1. unfold dyadic in H0, H1.
  replace (0 <=? e) with true in H0, H1 by (symmetry; apply Z.leb_le; lia).
  unfold Qle, inject_Z in H0, H1. cbn [Qnum Qden] in H0, H1.
  destruct s; cbn [cond_Zopp] in H0, H1; nia.
Qed.

End Order.

Section Lists.

Lemma traverse_app {A B : Type} (g : A -> result B) (l1 l2 : list A) :
  traverse g (l1 ++ l2)
  = rbind (traverse g l1) (fun a => rbind (traverse g l2) (fun b => Ok (a ++ b))).
Proof.
  induction l1 as [|x l1 IH]; simpl.
  - destruct (traverse g l2); reflexivity.
  - destruct (g x) as [y|e]; simpl; [|reflexivity].
    rewrite IH. destruct (traverse g l1) as [a|e]; simpl; [|reflexivity].
    destruct (traverse g l2); reflexivity.
Qed.

Lemma concat_app (sep : string) (l1 l2 : list string) :
  l1 <> [] -> l2 <> [] ->
  concat sep (l1 ++ l2) = (concat sep l1 ++ sep ++ concat sep l2)%string.
Proof.
  intros H1 H2. induction l1 as [|a l1 IH]; [congruence|].
  destruct l1 as [|b l1].
  - cbn [app]. destruct l2 as [|c l2]; [congruence|]. reflexivity.
  - change (concat sep ((a :: b :: l1) ++ l2))
      with (a ++ sep ++ concat sep ((b :: l1) ++ l2))%string.
    rewrite IH by discriminate.
    change (concat sep (a :: b :: l1)) with (a ++ sep ++ concat sep (b :: l1))%string.
    rewrite !append_assoc. reflexivity.
Qed.

(** Quantizing a concatenation is concatenating the quantizations, and the
    text of a concatenation is the two texts with one separator between
    them, so a tensor can be processed in chunks. *)
Theorem chunks_compose (d1 d2 : list element) (v1 v2 : list Z) (w : World) :
  mnist_image_to_fixed_point d1 w = (Ok v1, w) ->
  mnist_image_to_fixed_point d2 w = (Ok v2, w) ->
  mnist_image_to_fixed_point (d1 ++ d2) w = (Ok (v1 ++ v2), w) /\
  exists t1 t2,
    generate_input_cairo d1 w = (Ok t1, w) /\
    generate_input_cairo d2 w = (Ok t2, w) /\
    generate_input_cairo (d1 ++ d2) w
    = (Ok (match d1, d2 with
           | [], _ => t2
           | _, [] => t1
           | _, _ => t1 ++ separator ++ t2
           end)%string, w).
Proof.
  rewrite !mnist_image_to_fixed_point_run, !generate_input_cairo_run.
  intros [= H1] [= H2]. rewrite traverse_app, H1, H2. cbn [rbind].
  split; [reflexivity|].
  exists (serialize v1), (serialize v2). split; [reflexivity|]. split; [reflexivity|].
  do 2 f_equal.
  apply traverse_Forall2 in H1, H2.
  destruct d1 as [|x1 d1].
  - inversion H1; subst. reflexivity.
  - destruct d2 as [|x2 d2].
    + inversion H2; subst. rewrite app_nil_r. reflexivity.
    + inversion H1; subst. inversion H2; subst.
      unfold serialize, join. rewrite map_app.
      apply concat_app; discriminate.
Qed.

(** The exception that comes out is that of the first element that fails;
    what follows it in the list is not looked at. *)
Theorem first_failure_propagates
    (pre post : list element) (x : element) (e : exn) (w : World) :
  Forall (fun y => returns (to_fixed_point (item y) 16) w) pre ->
  to_fixed_point (item x) 16 w = (Raise e, w) ->
  mnist_image_to_fixed_point (pre ++ x :: post) w = (Raise e, w) /\
  generate_input_cairo (pre ++ x :: post) w = (Raise e, w).
Proof.
  intros Hpre Hx.
  rewrite mnist_image_to_fixed_point_run, generate_input_cairo_run, traverse_app.
  assert (Hp : exists vs, traverse (fun val => quantize (item val) 16) pre = Ok vs).
  { apply traverse_returns. eapply Forall_impl; [|exact Hpre].
    intros y Hy. apply returns_to_fixed_point in Hy. exact Hy. }
  destruct Hp as [vs ->]. cbn [rbind traverse].
  rewrite to_fixed_point_run in Hx. injection Hx as ->. split; reflexivity.
Qed.

End Lists.

Section Pixels.

Local Open Scope string_scope.

(** Pixels as [ToTensor] yields them, in [0, 1]: every one quantizes, to a
    value between 0 and 65536, and every literal carries the flag [false];
    no negative first argument is emitted. *)
Theorem unit_pixels_nonnegative (data : list element) (w : World) :
  Forall (fun x => valid_binary prec emax (item x) = true /\
                   is_finite (item x) = true /\
                   (0 <= float_value (item x))%Q /\
                   (float_value (item x) <= 1)%Q) data ->
  exists vs,
    mnist_image_to_fixed_point data w = (Ok vs, w) /\
    generate_input_cairo data w = (Ok (serialize vs), w) /\
    Forall (fun v => (0 <= v <= 65536)%Z /\
                     literal v = "FixedTrait::<FP16x16>::new(" ++ str v ++ ", false)") vs.
Proof.
  intro H.
  assert (Hvs : exists vs,
            Forall2 (fun x v => to_fixed_point (item x) 16 w = (Ok v, w)) data vs /\
            Forall (fun v => (0 <= v <= 65536)%Z) vs).
  { induction H as [|x data (Hv & Hf & H0 & H1) _ IH].
    - exists []. split; constructor.
    - destruct IH as (vs & Hall & Hb).
      pose proof (unit_interval_in_range (item x) Hv Hf H0 H1) as Hr.
      destruct (quantize_exact (item x) 16 Hv sixteen_in_bounds Hr) as (n & Hn & Hnear).
      exists (n :: vs). split.
      + constructor; [apply to_fixed_point_Ok; exact Hn|exact Hall].
      + constructor; [|exact Hb].
        apply (nearest_even_between (float_value (item x) * 2 ^ 16)); [| |exact Hnear].
        * apply (Qle_trans _ (0 * 2 ^ 16)); [discriminate|].
          apply scale_le. exact H0.
        * apply (Qle_trans _ (1 * 2 ^ 16)); [|discriminate].
          apply scale_le. exact H1. }
  destruct Hvs as (vs & Hall & Hb). exists vs.
  split; [apply mnist_image_to_fixed_point_Ok; exact Hall|].
  split; [apply generate_input_cairo_Ok; exact Hall|].
  eapply Forall_impl; [|exact Hb]. intros v Hv. cbv beta in Hv. split; [exact Hv|].
  unfold literal. replace (v <? 0)%Z with false by (symmetry; apply Z.ltb_ge; lia).
  reflexivity.
Qed.

End Pixels.

Section ReadBack.

Local Open Scope string_scope.

Lemma strip_prefix_app (p s : string) : strip_prefix p (p ++ s) = Some s.
Proof.
  induction p as [|a p IH]; cbn [append strip_prefix]; [reflexivity|].
  rewrite Ascii.eqb_refl. exact IH.
Qed.

Lemma until_comma_app (a b : string) :
  no_comma a = true -> until_comma (a ++ String "," b) = Some (a, b).
Proof.
  induction a as [|c a IH]; cbn [append until_comma no_comma]; intro H.
  - reflexivity.
  - apply andb_prop in H as [Hc Ha]. apply negb_true_iff in Hc.
    rewrite Hc, (IH Ha). reflexivity.
Qed.

Lemma no_comma_uint (d : uint) : no_comma (NilEmpty.string_of_uint d) = true.
Proof. induction d; simpl; auto. Qed.

Lemma no_comma_str (v : Z) : no_comma (str v) = true.
Proof.
  assert (H : forall d, no_comma (NilZero.string_of_uint d) = true).
  { intro d. pose proof (no_comma_uint d). destruct d; auto. }
  unfold str. destruct (Z.to_int v); simpl; auto.
Qed.

(** A literal reads back as the value and the flag it was made from. *)
Lemma read_literal_literal (v : Z) : read_literal (literal v) = Some (v, (v <? 0)%Z).
Proof.
  unfold read_literal, literal. rewrite strip_prefix_app.
  change (str v ++ ", " ++ (if (v <? 0)%Z then "true" else "false") ++ ")")
    with (str v ++ String "," (" " ++ (if (v <? 0)%Z then "true" else "false") ++ ")")).
  rewrite until_comma_app by apply no_comma_str.
  pose proof (str_faithful v) as Hs.
  destruct (NilZero.int_of_string (str v)) as [d|]; [|discriminate].
  cbn [option_map] in Hs. injection Hs as ->.
  destruct (v <? 0)%Z; reflexivity.
Qed.

(** The text determines the values: splitting it and reading each literal
    gives back every quantized value with its sign flag, in order. *)
Theorem text_reads_back (data : list element) (vs : list Z) (w : World) :
  data <> [] ->
  mnist_image_to_fixed_point data w = (Ok vs, w) ->
  exists text,
    generate_input_cairo data w = (Ok text, w) /\
    read_text text = map (fun v => Some (v, (v <? 0)%Z)) vs.
Proof.
  intros Hne H. apply mnist_image_to_fixed_point_Ok in H.
  exists (serialize vs). split; [apply generate_input_cairo_Ok; exact H|].
  unfold read_text.
  assert (Hsplit : split_literals (serialize vs) = map literal vs).
  { apply split_join.
    - destruct H; [congruence|discriminate].
    - apply Forall_forall. intros l Hl. apply in_map_iff in Hl as (v' & <- & _).
      apply no_newline_literal. }
  rewrite Hsplit, map_map. apply map_ext. intro v. apply read_literal_literal.
Qed.

End ReadBack.

(** ** The top-level part of the cell *)

Section Script.

Local Open Scope string_scope.

Lemma mark_closed_last (hs : list (string * bool)) (path : string) (open_ : bool) :
  mark_closed (List.length hs) (hs ++ [(path, open_)])%list
  = (hs ++ [(path, true)])%list.
Proof.
  induction hs as [|[p c] hs IH]; simpl.
  - reflexivity.
  - rewrite IH. reflexivity.
Qed.

Lemma nth_error_last {A : Type} (l : list A) (a : A) :
  nth_error (l ++ [a])%list (List.length l) = Some a.
Proof.
  rewrite nth_error_app2 by apply Nat.le_refl. rewrite Nat.sub_diag. reflexivity.
Qed.

Lemma write_open
    (g : list (string * obj)) (f : list (string * string)) (d : list string)
    (h : list (string * bool)) (fs : list (list (string * obj)))
    (path old s : string) :
  assoc_get path f = Some old ->
  write (List.length h) s (mkWorld g f d (h ++ [(path, false)])%list fs)
  = (Ok tt, mkWorld g (assoc_set path (old ++ s) f) d (h ++ [(path, false)])%list fs).
Proof.
  intro Hold. unfold write. cbn [handles files globals dirs frames].
  rewrite nth_error_last, Hold. reflexivity.
Qed.

(** What the script does to a world, in one step. *)
Lemma write_input_cairo_run (row : list element) (w : World) :
  write_input_cairo row w
  = match fst (generate_input_cairo row w) with
    | Ok text =>
        let w1 := snd (store "input_cairo" (OStr text) w) in
        if openable input_path w then (Ok tt, written text w1) else (Raise OSError, w1)
    | Raise e => (Raise e, w)
    end.
Proof.
  unfold write_input_cairo. unfold bind at 1. rewrite generate_input_cairo_run. cbn [fst].
  destruct (rbind _ _) as [text|e]; [|reflexivity].
  cbv zeta. unfold bind at 1.
  assert (Hdirs : forall name v, dirs (snd (store name v w)) = dirs w).
  { intros name v. unfold store. destruct (frames w); reflexivity. }
  assert (Hopen : openable input_path (snd (store "input_cairo" (OStr text) w))
                  = openable input_path w).
  { unfold openable, is_dir. rewrite Hdirs. reflexivity. }
  destruct (store "input_cairo" (OStr text) w) as [[[]|e] w1] eqn:Hstore;
    [|unfold store in Hstore; destruct (frames w); discriminate].
  cbn [snd] in Hopen |- *. unfold bind at 1, open_w. rewrite Hopen.
  destruct (openable input_path w); [|reflexivity].
  unfold written, bind at 1.
  destruct w1 as [g f d h fs].
  unfold store, closing, bind, close.
  cbn [globals files dirs handles frames snd].
  destruct fs as [|fr rest]; cbn [globals files dirs handles frames snd fst];
    rewrite (write_open _ _ _ _ _ _ "") by apply assoc_get_set_same;
    rewrite (write_open _ _ _ _ _ _ ("" ++ header)) by apply assoc_get_set_same;
    rewrite (write_open _ _ _ _ _ _ (("" ++ header) ++ text))
      by apply assoc_get_set_same;
    cbn [globals files dirs handles frames snd fst];
    rewrite !assoc_set_set, mark_closed_last;
    change ("" ++ header) with header; rewrite append_assoc; reflexivity.
Qed.

(** Run at module level in a world where the text can be generated and the
    file opened, the script binds [input_cairo] to the text and [f] to a new
    file object, which it leaves closed, and leaves [input.cairo] holding
    the header, the text and the footer, whatever the file held before.  No
    other file, no other global, no directory and no earlier file object
    changes. *)
Theorem script_overwrites_input_file (row : list element) (text : string) (w : World) :
  frames w = [] ->
  generate_input_cairo row w = (Ok text, w) ->
  openable input_path w = true ->
  fst (write_input_cairo row w) = Ok tt /\
  assoc_get input_path (files (snd (write_input_cairo row w)))
  = Some (header ++ text ++ footer) /\
  binding "input_cairo" (snd (write_input_cairo row w)) = Some (OStr text) /\
  binding "f" (snd (write_input_cairo row w)) = Some (OFile (List.length (handles w))) /\
  handles (snd (write_input_cairo row w)) = (handles w ++ [(input_path, true)])%list /\
  (forall path, path <> input_path ->
     assoc_get path (files (snd (write_input_cairo row w)))
     = assoc_get path (files w)) /\
  (forall name, name <> "input_cairo" -> name <> "f" ->
     binding name (snd (write_input_cairo row w)) = binding name w) /\
  dirs (snd (write_input_cairo row w)) = dirs w /\
  frames (snd (write_input_cairo row w)) = [].
Proof.
  intros Hfr Hgen Hopen. rewrite write_input_cairo_run, Hgen, Hopen. cbn [fst].
  destruct w as [g f d h fs]. cbn [frames] in Hfr. subst fs.
  unfold written, store, binding. cbn [snd fst globals files dirs handles frames].
  split; [reflexivity|]. split; [apply assoc_get_set_same|].
  split; [rewrite assoc_get_set_other by discriminate; apply assoc_get_set_same|].
  split; [apply assoc_get_set_same|]. split; [reflexivity|].
  split; [intros k Hk; apply assoc_get_set_other; exact Hk|].
  split; [|split; reflexivity].
  intros k Hk1 Hk2. rewrite !assoc_get_set_other by assumption. reflexivity.
Qed.

(** When an element fails to quantize, the script raises before the file is
    opened: an existing [input.cairo] keeps its content and [input_cairo] is
    not bound. *)
Theorem script_failure_leaves_world
    (row : list element) (x : element) (e : exn) (w : World) :
  In x row ->
  to_fixed_point (item x) 16 w = (Raise e, w) ->
  exists e', write_input_cairo row w = (Raise e', w).
Proof.
  intros Hin Hx. rewrite write_input_cairo_run.
  destruct (fst (generate_input_cairo row w)) as [text|e'] eqn:Hg.
  - exfalso.
    assert (Hr : returns (generate_input_cairo row) w) by (exists text; exact Hg).
    apply returns_generate in Hr. rewrite Forall_forall in Hr.
    destruct (Hr x Hin) as [n Hn]. rewrite Hx in Hn. discriminate.
  - exists e'. reflexivity.
Qed.

(** When the text can be generated but the file cannot be opened, for one
    because the directory [mnist_cairo/src] does not exist, the script
    raises OSError with [input_cairo] already bound to the text: no file is
    created or changed, no file object is made and [f] is not bound. *)
Theorem script_cannot_open (row : list element) (text : string) (w : World) :
  frames w = [] ->
  generate_input_cairo row w = (Ok text, w) ->
  openable input_path w = false ->
  fst (write_input_cairo row w) = Raise OSError /\
  binding "input_cairo" (snd (write_input_cairo row w)) = Some (OStr text) /\
  (forall name, name <> "input_cairo" ->
     binding name (snd (write_input_cairo row w)) = binding name w) /\
  files (snd (write_input_cairo row w)) = files w /\
  dirs (snd (write_input_cairo row w)) = dirs w /\
  handles (snd (write_input_cairo row w)) = handles w /\
  frames (snd (write_input_cairo row w)) = [].
Proof.
  intros Hfr Hgen Hopen. rewrite write_input_cairo_run, Hgen, Hopen. cbn [fst].
  destruct w as [g f d h fs]. cbn [frames] in Hfr. subst fs.
  unfold store, binding. cbn [snd fst globals files dirs handles frames].
  split; [reflexivity|]. split; [apply assoc_get_set_same|].
  split; [|repeat split].
  intros k Hk. apply assoc_get_set_other. exact Hk.
Qed.

(** Running the script a second time at module level repeats the outcome
    and leaves the files, the directories and every global but [f] as the
    first run left them: the file is truncated, not appended to.  When the
    script returns, the second run makes a file object of its own, so [f] is
    bound to a new object. *)
Theorem script_idempotent (row : list element) (w : World) :
  frames w = [] ->
  fst (write_input_cairo row (snd (write_input_cairo row w)))
  = fst (write_input_cairo row w) /\
  files (snd (write_input_cairo row (snd (write_input_cairo row w))))
  = files (snd (write_input_cairo row w)) /\
  dirs (snd (write_input_cairo row (snd (write_input_cairo row w))))
  = dirs (snd (write_input_cairo row w)) /\
  frames (snd (write_input_cairo row (snd (write_input_cairo row w)))) = [] /\
  (forall name, name <> "f" ->
     binding name (snd (write_input_cairo row (snd (write_input_cairo row w))))
     = binding name (snd (write_input_cairo row w))) /\
  (fst (write_input_cairo row w) = Ok tt ->
   binding "f" (snd (write_input_cairo row w)) = Some (OFile (List.length (handles w))) /\
   binding "f" (snd (write_input_cairo row (snd (write_input_cairo row w))))
   = Some (OFile (S (List.length (handles w)))) /\
   handles (snd (write_input_cairo row (snd (write_input_cairo row w))))
   = (handles (snd (write_input_cairo row w)) ++ [(input_path, true)])%list).
Proof.
  intro Hfr. destruct w as [g f d h fs]. cbn [frames] in Hfr. subst fs.
  rewrite (write_input_cairo_run row (mkWorld g f d h [])), generate_input_cairo_run.
  cbn [fst].
  destruct (rbind _ _) as [text|e] eqn:Hgen; cbv zeta.
  - destruct (openable input_path (mkWorld g f d h [])) eqn:Ho.
    + unfold written, store, binding.
      cbn [snd fst globals files dirs handles frames].
      rewrite write_input_cairo_run, generate_input_cairo_run, Hgen. cbn [fst]. cbv zeta.
      replace (openable input_path _) with true by (symmetry; exact Ho).
      unfold written, store. cbn [snd fst globals files dirs handles frames].
      split; [reflexivity|]. split; [rewrite assoc_set_set; reflexivity|].
      split; [reflexivity|]. split; [reflexivity|]. split.
      * intros k Hk. rewrite !(assoc_get_set_other "f") by exact Hk.
        destruct (String.eqb_spec k "input_cairo") as [->|Hne].
        -- rewrite !assoc_get_set_same. reflexivity.
        -- repeat first [rewrite (assoc_get_set_other "f") by exact Hk
                        |rewrite (assoc_get_set_other "input_cairo") by exact Hne].
           reflexivity.
      * intros _. split; [apply assoc_get_set_same|]. split; [|reflexivity].
        rewrite assoc_get_set_same, length_app. cbn [List.length].
        rewrite Nat.add_1_r. reflexivity.
    + unfold store, binding. cbn [snd fst globals files dirs handles frames].
      rewrite write_input_cairo_run, generate_input_cairo_run, Hgen. cbn [fst]. cbv zeta.
      replace (openable input_path _) with false by (symmetry; exact Ho).
      unfold store. cbn [snd fst globals files dirs handles frames].
      split; [reflexivity|]. split; [reflexivity|]. split; [reflexivity|].
      split; [reflexivity|]. split.
      * intros k Hk. rewrite assoc_set_set. reflexivity.
      * intro H. discriminate H.
  - cbn [snd fst].
    rewrite write_input_cairo_run, generate_input_cairo_run, Hgen. cbn [fst snd frames].
    do 4 (split; [reflexivity|]). split; [intros; reflexivity|].
    intro H. discriminate H.
Qed.

End Script.

End Cell.

(** ** The training cell: what it records *)

Section TrainingCell.

Context {T : Torch}.

Lemma logged_indices_S (n : nat) :
  logged_indices (S n)
  = logged_indices n
      ++ (if Z.of_nat n mod log_interval =? 0 then [Z.of_nat n] else []).
Proof.
  unfold logged_indices. rewrite seq_S, map_app, filter_app. reflexivity.
Qed.

Lemma logged_count_S (n : nat) :
  (Z.of_nat n mod log_interval = 0 ->
   logged_count (S n) = S (logged_count n) /\
   Z.of_nat n = Z.of_nat (logged_count n) * log_interval) /\
  (Z.of_nat n mod log_interval <> 0 -> logged_count (S n) = logged_count n).
Proof.
  unfold logged_count, log_interval.
  pose proof (Z.div_mod (Z.of_nat n) 10000 ltac:(lia)) as Hn.
  pose proof (Z.mod_pos_bound (Z.of_nat n) 10000 ltac:(lia)) as Hr.
  set (q := Z.of_nat n / 10000) in *. set (r := Z.of_nat n mod 10000) in *.
  assert (Hq : 0 <= q) by (apply Z.div_pos; lia).
  change (10000 - 1) with 9999.
  assert (HS : (Z.of_nat (S n) + 9999) / 10000 = q + 1).
  { symmetry. apply (Z.div_unique _ 10000 (q + 1) r); lia. }
  split.
  - intro H0.
    assert (H1 : (Z.of_nat n + 9999) / 10000 = q).
    { symmetry. apply (Z.div_unique _ 10000 q 9999); lia. }
    rewrite HS, H1. split; lia.
  - intro H0.
    assert (H1 : (Z.of_nat n + 9999) / 10000 = q + 1).
    { symmetry. apply (Z.div_unique _ 10000 (q + 1) (r - 1)); lia. }
    rewrite HS, H1. reflexivity.
Qed.

(** The logging indices are the multiples of the interval below [n]. *)
Lemma logged_indices_multiples (n : nat) :
  logged_indices n
  = map (fun k => Z.of_nat k * log_interval) (seq 0 (logged_count n)).
Proof.
  induction n as [|n IH]; [reflexivity|].
  rewrite logged_indices_S, IH.
  destruct (logged_count_S n) as [Hzero Hnonzero].
  destruct (Z.of_nat n mod log_interval =? 0) eqn:Hm.
  - apply Z.eqb_eq in Hm. destruct (Hzero Hm) as [-> Hn].
    rewrite seq_S, map_app. cbn [map Nat.add]. rewrite Hn. reflexivity.
  - apply Z.eqb_neq in Hm. rewrite (Hnonzero Hm), app_nil_r. reflexivity.
Qed.

Lemma shifted_indices (i : Z) (n : nat) :
  map (fun j => i + Z.of_nat j) (seq 0 (S n))
  = i :: map (fun j => (i + 1) + Z.of_nat j) (seq 0 n).
Proof.
  cbn [seq map]. f_equal; [lia|].
  rewrite <- seq_shift, map_map. apply map_ext. intro j. lia.
Qed.

Lemma train_loop_records (epoch dataset_len loader_len : Z) (batches : list batch) :
  forall (i : Z) (st : Training),
    let logged :=
      filter (fun i => i mod log_interval =? 0)
        (map (fun j => i + Z.of_nat j) (seq 0 (List.length batches))) in
    let st' := train_loop epoch dataset_len loader_len i batches st in
    train_counter st' = train_counter st ++ map (counter_at dataset_len epoch) logged /\
    List.length (train_losses st')
    = (List.length (train_losses st) + List.length logged)%nat /\
    List.length (printed st')
    = (List.length (printed st) + List.length logged)%nat.
Proof.
  induction batches as [|b rest IH]; intros i st.
  - cbn. rewrite app_nil_r. repeat split; lia.
  - cbv zeta. cbn [List.length]. rewrite shifted_indices.
    cbn [train_loop filter].
    destruct (optimize (network st) b) as [net l].
    destruct (i mod log_interval =? 0).
    + specialize (IH (i + 1)
        (mkTraining net
           (printed st ++ [progress_line epoch i b dataset_len loader_len l])
           (train_losses st ++ [loss_item l])
           (train_counter st ++ [i * 64 + (epoch - 1) * dataset_len]))).
      cbv zeta in IH. destruct IH as (Hc & Hl & Hp).
      cbn [train_counter train_losses printed] in Hc, Hl, Hp.
      rewrite Hc, Hl, Hp, !length_app. cbn [map List.length].
      rewrite <- app_assoc. repeat split; lia.
    + specialize (IH (i + 1)
        (mkTraining net (printed st) (train_losses st) (train_counter st))).
      cbv zeta in IH. destruct IH as (Hc & Hl & Hp).
      cbn [train_counter train_losses printed] in Hc, Hl, Hp.
      rewrite Hc, Hl, Hp. repeat split.
Qed.

Lemma train_appends
    (dataset_len epoch : Z) (loader : list batch) (st : Training) :
  train_counter (train dataset_len loader epoch st)
  = train_counter st
      ++ map (fun k => 640000 * Z.of_nat k + (epoch - 1) * dataset_len)
           (seq 0 (logged_count (List.length loader))) /\
  List.length (train_losses (train dataset_len loader epoch st))
  = (List.length (train_losses st) + logged_count (List.length loader))%nat /\
  List.length (printed (train dataset_len loader epoch st))
  = (List.length (printed st) + logged_count (List.length loader))%nat.
Proof.
  unfold train.
  pose proof (train_loop_records epoch dataset_len (Z.of_nat (List.length loader)) loader 0
                (mkTraining (network_train (network st))
                   (printed st) (train_losses st) (train_counter st))) as H.
  cbv zeta in H. cbn [train_counter train_losses printed] in H.
  assert (Hidx : filter (fun i => i mod log_interval =? 0)
                   (map (fun j => 0 + Z.of_nat j) (seq 0 (List.length loader)))
                 = map (fun k => Z.of_nat k * log_interval)
                     (seq 0 (logged_count (List.length loader)))).
  { rewrite <- logged_indices_multiples. reflexivity. }
  rewrite Hidx in H. rewrite map_map, length_map, length_seq in H.
  destruct H as (Hc & Hl & Hp).
  split; [|split; assumption].
  rewrite Hc. f_equal. apply map_ext. intro k.
  unfold counter_at, log_interval. lia.
Qed.

(** One call of [train] appends one counter per multiple of 10000 below
    the number of batches, the counter at index [10000 * k] being
    [640000 * k + (epoch - 1) * len(dataset)]; it appends as many losses and
    prints as many lines.  So the two global lists stay of equal length. *)
Theorem train_records
    (dataset_len epoch : Z) (loader : list batch) (st : Training) :
  train_counter (train dataset_len loader epoch st)
  = train_counter st
      ++ map (fun k => 640000 * Z.of_nat k + (epoch - 1) * dataset_len)
           (seq 0 (logged_count (List.length loader))) /\
  List.length (train_losses (train dataset_len loader epoch st))
  = (List.length (train_losses st) + logged_count (List.length loader))%nat /\
  List.length (printed (train dataset_len loader epoch st))
  = (List.length (printed st) + logged_count (List.length loader))%nat /\
  (List.length (train_losses st) = List.length (train_counter st) ->
   List.length (train_losses (train dataset_len loader epoch st))
   = List.length (train_counter (train dataset_len loader epoch st))).
Proof.
  destruct (train_appends dataset_len epoch loader st) as (Hc & Hl & Hp).
  split; [exact Hc|]. split; [exact Hl|]. split; [exact Hp|].
  intro Heq. rewrite Hl, Hc, length_app, length_map, length_seq. lia.
Qed.

Lemma logged_count_pos (n : nat) : logged_count (S n) = S (logged_count (S n) - 1).
Proof.
  assert (H : (1 <= logged_count (S n))%nat).
  { unfold logged_count, log_interval. change (10000 - 1) with 9999.
    assert (1 <= (Z.of_nat (S n) + 9999) / 10000).
    { apply Z.div_le_lower_bound; lia. }
    lia. }
  lia.
Qed.

Lemma run_appends (dataset_len : Z) (loader : Z -> list batch) (epochs : list nat) :
  forall st : Training,
    let st' :=
      fold_left (fun st i => train dataset_len (loader (Z.of_nat i)) (Z.of_nat i) st)
        epochs st in
    train_counter st'
    = train_counter st
        ++ flat_map
             (fun i => map (fun k => 640000 * Z.of_nat k + (Z.of_nat i - 1) * dataset_len)
                         (seq 0 (logged_count (List.length (loader (Z.of_nat i))))))
             epochs /\
    (List.length (train_losses st) = List.length (train_counter st) ->
     List.length (train_losses st') = List.length (train_counter st')).
Proof.
  induction epochs as [|i epochs IH]; intro st; cbv zeta.
  - cbn. rewrite app_nil_r. split; [reflexivity|tauto].
  - cbn [fold_left flat_map].
    destruct (train_appends dataset_len (Z.of_nat i) (loader (Z.of_nat i)) st)
      as (Hc & Hl & _).
    specialize (IH (train dataset_len (loader (Z.of_nat i)) (Z.of_nat i) st)).
    cbv zeta in IH. destruct IH as [IHc IHl]. split.
    + rewrite IHc, Hc, <- app_assoc. reflexivity.
    + intro Heq. apply IHl.
      rewrite Hl, Hc, length_app, length_map, length_seq. lia.
Qed.

(** The ten epochs of the notebook, numbered from 0: the counters recorded
    are those of the epochs one after the other, the two lists end of equal
    length, and since the formula subtracts one from the epoch, the first
    counter recorded is minus the size of the dataset. *)
Theorem training_run_records
    (dataset_len : Z) (loader : Z -> list batch) (st : Training) :
  train_counter st = [] ->
  train_losses st = [] ->
  loader 0 <> [] ->
  train_counter (training_run dataset_len loader st)
  = flat_map
      (fun i => map (fun k => 640000 * Z.of_nat k + (Z.of_nat i - 1) * dataset_len)
                  (seq 0 (logged_count (List.length (loader (Z.of_nat i))))))
      (seq 0 10) /\
  List.length (train_losses (training_run dataset_len loader st))
  = List.length (train_counter (training_run dataset_len loader st)) /\
  hd_error (train_counter (training_run dataset_len loader st)) = Some (- dataset_len).
Proof.
  intros Hc Hl Hne. unfold training_run.
  destruct (run_appends dataset_len loader (seq 0 10) st) as [Hrun Hlen].
  cbv zeta in Hrun, Hlen. rewrite Hc in Hrun. cbn [app] in Hrun.
  split; [exact Hrun|]. split; [apply Hlen; rewrite Hc, Hl; reflexivity|].
  rewrite Hrun. cbn [seq flat_map].
  change (Z.of_nat 0) with 0.
  destruct (loader 0) as [|b rest]; [congruence|].
  cbn [List.length]. rewrite logged_count_pos. cbn [seq map].
  rewrite app_nil_l, <- app_comm_cons. cbn [hd_error].
  f_equal; lia.
Qed.

End TrainingCell.

(** ** The statements at concrete inputs

    Elements are read as float64 elements; the last statement reads them as
    float32 pixels. *)

Section Instances.

Local Open Scope string_scope.

Lemma generate_input_cairo_text_witness :
  generate_input_cairo item_float64 [f_half; f_neg_half] empty_world
  = (Ok ("FixedTrait::<FP16x16>::new(32768, false)," ++ String newline
         " FixedTrait::<FP16x16>::new(-32768, true)"), empty_world).
Proof.
  destruct (proj1 (generate_input_cairo_text item_float64 [f_half; f_neg_half] empty_world
                     ltac:(repeat (constructor; try reflexivity))))
    as (vs & Hvs & Hgen).
  rewrite Hgen.
  inversion Hvs as [|x1 v1 l1 vs1 H1 Hrest1]; subst.
  inversion Hrest1 as [|x2 v2 l2 vs2 H2 Hrest2]; subst.
  inversion Hrest2; subst.
  vm_compute in H1, H2. injection H1 as <-. injection H2 as <-. reflexivity.
Defined.

(** C2 as stated fails: on a sequence that holds an infinity the function
    raises and returns no text. *)
Lemma generate_input_cairo_not_total :
  generate_input_cairo item_float64 [f_neg_half; S754_infinity false; f_one] empty_world
  = (Raise OverflowError, empty_world) /\
  ~ returns (generate_input_cairo item_float64 [f_neg_half; S754_infinity false; f_one])
      empty_world.
Proof.
  split; [reflexivity|]. intros [text H]. discriminate H.
Qed.

Lemma length_and_order_preserved_witness :
  mnist_image_to_fixed_point item_float64 [f_half; f_neg_half; f_one] empty_world
  = (Ok [32768; -32768; 65536]%Z, empty_world) /\
  exists text,
    generate_input_cairo item_float64 [f_half; f_neg_half; f_one] empty_world
    = (Ok text, empty_world) /\
    List.length (split_literals text) = 3%nat /\
    nth_error (split_literals text) 0 = Some "FixedTrait::<FP16x16>::new(32768, false)" /\
    nth_error (split_literals text) 1 = Some "FixedTrait::<FP16x16>::new(-32768, true)" /\
    nth_error (split_literals text) 2 = Some "FixedTrait::<FP16x16>::new(65536, false)".
Proof.
  destruct (length_and_order_preserved item_float64 [f_half; f_neg_half; f_one] empty_world
              ltac:(repeat (constructor; try reflexivity)))
    as (vs & Hm & Hlen & Hnth & text & Hgen & Hsplit & Hlit).
  assert (Hvs : vs = [32768; -32768; 65536]%Z).
  { vm_compute in Hm. injection Hm as <-. reflexivity. }
  subst vs. split; [exact Hm|]. exists text.
  split; [exact Hgen|]. split; [exact Hsplit|].
  split; [exact (Hlit 0%nat _ eq_refl)|].
  split; [exact (Hlit 1%nat _ eq_refl)|exact (Hlit 2%nat _ eq_refl)].
Defined.

(** C8 as stated fails: on a list of two elements that starts with a NaN
    no list of values is returned and no literal is emitted. *)
Lemma mnist_image_to_fixed_point_not_total :
  mnist_image_to_fixed_point item_float64 [S754_nan; f_half] empty_world
  = (Raise ValueError, empty_world) /\
  (forall vs, mnist_image_to_fixed_point item_float64 [S754_nan; f_half] empty_world
              <> (Ok vs, empty_world)) /\
  generate_input_cairo item_float64 [S754_nan; f_half] empty_world
  = (Raise ValueError, empty_world).
Proof.
  split; [reflexivity|]. split; [|reflexivity]. intros vs H. discriminate H.
Qed.



(** The statements of [generate_input_cairo], were they run at module level
    and not in a call, would leave the global [values] bound; the call
    leaves none, and leaves a caller's local and a global of that name as
    they were. *)
Example assignments_stay_in_the_call :
  binding "values" (snd (generate_input_cairo_body item_float64 [f_half] empty_world))
  = Some (OStrs ["FixedTrait::<FP16x16>::new(32768, false)"]) /\
  binding "values" (snd (call_generate_input_cairo item_float64 [f_half] empty_world))
  = None /\
  call_generate_input_cairo item_float64 [f_half]
    (mkWorld [("values", OStr "kept")] [] [] [] [[("values", ONum (Int 7))]])
  = (Ok "FixedTrait::<FP16x16>::new(32768, false)",
     mkWorld [("values", OStr "kept")] [] [] [] [[("values", ONum (Int 7))]]).
Proof.
  repeat split.
Qed.

Lemma negative_value_emitted_signed_witness :
  exists text,
    generate_input_cairo item_float64 [f_half; f_neg_half] empty_world
    = (Ok text, empty_world) /\
    nth_error (split_literals text) 1
    = Some "FixedTrait::<FP16x16>::new(-32768, true)".
Proof.
  apply (negative_value_emitted_signed item_float64 [f_half; f_neg_half]
           [32768; -32768]%Z empty_world 1 (-32768)%Z).
  - repeat (constructor; try reflexivity).
  - reflexivity.
  - reflexivity.
Defined.

Lemma to_fixed_point_quantizes_witness :
  exists n,
    to_fixed_point f_neg_half 16 empty_world = (Ok n, empty_world) /\
    nearest_even (float_value f_neg_half * 2 ^ 16) n /\
    forall n', nearest_even (float_value f_neg_half * 2 ^ 16) n' -> n' = n.
Proof.
  apply (to_fixed_point_quantizes item_float64 f_neg_half 16 [f_half; f_one] empty_world).
  - reflexivity.
  - vm_compute. reflexivity.
  - reflexivity.
  - repeat (constructor; try reflexivity).
Defined.

(** C1 as stated fails: on NaN, and on [bits = 1024] with [val = 1.0], no
    integer is returned. *)
Lemma to_fixed_point_not_total :
  to_fixed_point S754_nan 16 empty_world = (Raise ValueError, empty_world) /\
  to_fixed_point f_one 1024 empty_world = (Raise OverflowError, empty_world).
Proof. split; vm_compute; reflexivity. Qed.

Lemma returns_in_range_witness :
  returns (generate_input_cairo item_float64 [f_half; f_neg_half; f_one]) empty_world.
Proof.
  refine (proj1 (proj2 (proj2
            (returns_in_range item_float64 [f_half; f_neg_half; f_one] empty_world _ _)))).
  - repeat (constructor; try reflexivity).
  - repeat (constructor; try reflexivity).
Defined.

(** C3 as stated fails: each of the three functions raises on some float. *)
Lemma functions_raise :
  to_fixed_point (S754_infinity true) 16 empty_world = (Raise OverflowError, empty_world) /\
  to_fixed_point f_max 16 empty_world = (Raise OverflowError, empty_world) /\
  mnist_image_to_fixed_point item_float64 [f_half; S754_nan] empty_world
  = (Raise ValueError, empty_world) /\
  generate_input_cairo item_float64 [f_half; S754_nan] empty_world
  = (Raise ValueError, empty_world) /\
  generate_input_cairo item_float32 [S754_infinity false] empty_world
  = (Raise OverflowError, empty_world).
Proof. repeat split; vm_compute; reflexivity. Qed.

Lemma ties_go_to_even_witness :
  to_fixed_point f_tie 16 empty_world = (Ok 2%Z, empty_world) /\
  to_fixed_point f_neg_two_half 0 empty_world = (Ok (-2)%Z, empty_world).
Proof.
  split.
  - apply (ties_go_to_even f_tie 16 1 empty_world).
    left. exists f_one_half. split; reflexivity.
  - apply (ties_go_to_even f_neg_two_half 0 (-3) empty_world).
    right. split; [reflexivity|]. split; [reflexivity|].
    split; [split; [vm_compute; reflexivity|lia]|reflexivity].
Defined.

(** A few evaluations: [0.1], [-0.25] and [-1e-7] at 16 bits, [0.1] at
    [-1] and at [-1075] bits, and a list of pixels. *)
Example quantize_tenth :
  to_fixed_point (S754_finite false 7205759403792794 (-56)) 16 empty_world
  = (Ok 6554%Z, empty_world).
Proof. vm_compute. reflexivity. Qed.

Example quantize_negative_quarter :
  to_fixed_point (S754_finite true 4503599627370496 (-54)) 16 empty_world
  = (Ok (-16384)%Z, empty_world).
Proof. vm_compute. reflexivity. Qed.

Example quantize_small_negative :
  to_fixed_point (S754_finite true 7555786372591432 (-76)) 16 empty_world
  = (Ok 0%Z, empty_world).
Proof. vm_compute. reflexivity. Qed.

Example quantize_negative_bits :
  to_fixed_point (S754_finite false 7205759403792794 (-56)) (-1) empty_world
  = (Ok 0%Z, empty_world) /\
  to_fixed_point (S754_finite false 7205759403792794 (-56)) (-1075) empty_world
  = (Ok 0%Z, empty_world).
Proof. split; vm_compute; reflexivity. Qed.

Example generate_three :
  generate_input_cairo item_float64
    [S754_finite false 7205759403792794 (-56); S754_zero true; f_neg_half] empty_world
  = (Ok ("FixedTrait::<FP16x16>::new(6554, false)," ++ String newline
         " FixedTrait::<FP16x16>::new(0, false)," ++ String newline
         " FixedTrait::<FP16x16>::new(-32768, true)"), empty_world).
Proof. vm_compute. reflexivity. Qed.

(** The pixels of the notebook, finite float32 values, always go through. *)
Lemma float32_pixels_return (pixels : list spec_float) (w : World) :
  Forall (fun p => valid_binary 24 128 p = true /\ is_finite p = true) pixels ->
  returns (generate_input_cairo item_float32 pixels) w.
Proof.
  intro H. apply returns_generate.
  eapply Forall_impl; [|exact H]. intros p [Hv Hf].
  destruct (item_float32_in_range p Hv Hf) as (Hv' & Hr' & _).
  apply in_range_returns; [exact Hv'|exact sixteen_in_bounds|exact Hr'].
Qed.

(** *** The further properties at concrete inputs *)

Lemma to_fixed_point_monotone_witness : (-32768 <= 65536)%Z.
Proof.
  apply (to_fixed_point_monotone f_neg_half f_one 16 (-32768) 65536 empty_world).
  - reflexivity.
  - reflexivity.
  - unfold Qle. cbn. lia.
  - reflexivity.
  - reflexivity.
  - vm_compute. reflexivity.
Defined.

Lemma to_fixed_point_exact_on_grid_witness :
  to_fixed_point f_tie 17 empty_world = (Ok 3%Z, empty_world).
Proof.
  apply (to_fixed_point_exact_on_grid f_tie 17 3 empty_world).
  - reflexivity.
  - reflexivity.
  - vm_compute. reflexivity.
  - reflexivity.
Defined.

Lemma to_fixed_point_between_witness : (0 <= 32768 <= 65536)%Z.
Proof.
  apply (to_fixed_point_between f_half 16 32768 0 65536 empty_world).
  - reflexivity.
  - vm_compute. reflexivity.
  - reflexivity.
  - unfold Qle. cbn. lia.
  - unfold Qle. cbn. lia.
Defined.

Lemma unit_pixels_nonnegative_witness :
  exists vs,
    mnist_image_to_fixed_point item_float64 [f_half; S754_zero false; f_one] empty_world
    = (Ok vs, empty_world) /\
    generate_input_cairo item_float64 [f_half; S754_zero false; f_one] empty_world
    = (Ok (serialize vs), empty_world) /\
    Forall (fun v => (0 <= v <= 65536)%Z /\
                     literal v = "FixedTrait::<FP16x16>::new(" ++ str v ++ ", false)") vs.
Proof.
  apply (unit_pixels_nonnegative item_float64 [f_half; S754_zero false; f_one] empty_world).
  repeat (constructor; try reflexivity); unfold Qle; cbn; lia.
Defined.

Lemma chunks_compose_witness :
  mnist_image_to_fixed_point item_float64 ([f_half] ++ [f_neg_half; f_one])%list empty_world
  = (Ok ([32768%Z] ++ [(-32768)%Z; 65536%Z])%list, empty_world).
Proof.
  refine (proj1 (chunks_compose item_float64 [f_half] [f_neg_half; f_one]
                   [32768%Z] [(-32768)%Z; 65536%Z] empty_world _ _)).
  - reflexivity.
  - reflexivity.
Defined.

Lemma first_failure_propagates_witness :
  generate_input_cairo item_float64
    ([f_half] ++ S754_infinity false :: [S754_nan; f_one])%list empty_world
  = (Raise OverflowError, empty_world).
Proof.
  refine (proj2 (first_failure_propagates item_float64 [f_half] [S754_nan; f_one]
                   (S754_infinity false) OverflowError empty_world _ _)).
  - repeat constructor. exists 32768%Z. reflexivity.
  - reflexivity.
Defined.

Lemma text_reads_back_witness :
  exists text,
    generate_input_cairo item_float64 [f_half; f_neg_half] empty_world
    = (Ok text, empty_world) /\
    read_text text
    = map (fun v => Some (v, (v <? 0)%Z)) [32768%Z; (-32768)%Z].
Proof.
  apply (text_reads_back item_float64 [f_half; f_neg_half]
           [32768%Z; (-32768)%Z] empty_world).
  - discriminate.
  - reflexivity.
Defined.

Lemma script_overwrites_input_file_witness :
  assoc_get input_path
    (files (snd (write_input_cairo item_float64 [f_half; f_neg_half] used_world)))
  = Some (header
          ++ ("FixedTrait::<FP16x16>::new(32768, false)," ++ String newline
              " FixedTrait::<FP16x16>::new(-32768, true)")
          ++ footer) /\
  binding "f" (snd (write_input_cairo item_float64 [f_half; f_neg_half] used_world))
  = Some (OFile 1) /\
  handles (snd (write_input_cairo item_float64 [f_half; f_neg_half] used_world))
  = [("mnist_pytorch.onnx", true); (input_path, true)].
Proof.
  destruct (script_overwrites_input_file item_float64 [f_half; f_neg_half]
              ("FixedTrait::<FP16x16>::new(32768, false)," ++ String newline
               " FixedTrait::<FP16x16>::new(-32768, true)")
              used_world eq_refl eq_refl eq_refl)
    as (_ & Hfile & _ & Hf & Hh & _).
  split; [exact Hfile|]. split; [exact Hf|exact Hh].
Defined.

Lemma script_cannot_open_witness :
  fst (write_input_cairo item_float64 [f_half] bare_world) = Raise OSError /\
  binding "input_cairo" (snd (write_input_cairo item_float64 [f_half] bare_world))
  = Some (OStr "FixedTrait::<FP16x16>::new(32768, false)") /\
  files (snd (write_input_cairo item_float64 [f_half] bare_world)) = files bare_world.
Proof.
  destruct (script_cannot_open item_float64 [f_half]
              "FixedTrait::<FP16x16>::new(32768, false)" bare_world
              eq_refl eq_refl eq_refl)
    as (Hr & Hb & _ & Hf & _).
  split; [exact Hr|]. split; [exact Hb|exact Hf].
Defined.

Lemma script_idempotent_witness :
  binding "f" (snd (write_input_cairo item_float64 [f_half] used_world))
  = Some (OFile 1) /\
  binding "f"
    (snd (write_input_cairo item_float64 [f_half]
            (snd (write_input_cairo item_float64 [f_half] used_world))))
  = Some (OFile 2) /\
  files (snd (write_input_cairo item_float64 [f_half]
                (snd (write_input_cairo item_float64 [f_half] used_world))))
  = files (snd (write_input_cairo item_float64 [f_half] used_world)).
Proof.
  destruct (script_idempotent item_float64 [f_half] used_world eq_refl)
    as (_ & Hfiles & _ & _ & _ & Hf).
  destruct (Hf eq_refl) as (Hf1 & Hf2 & _).
  split; [exact Hf1|]. split; [exact Hf2|exact Hfiles].
Defined.

Lemma script_failure_leaves_world_witness :
  exists e',
    write_input_cairo item_float64 [f_half; S754_nan] used_world = (Raise e', used_world).
Proof.
  apply (script_failure_leaves_world item_float64 [f_half; S754_nan] S754_nan
           ValueError used_world).
  - simpl. right. left. reflexivity.
  - reflexivity.
Defined.

Lemma training_run_records_witness :
  hd_error
    (train_counter
       (training_run (T := toy_torch) 60000 (fun _ => [0%Z])
          (mkTraining (T := toy_torch) 0%nat [] [] [])))
  = Some (-60000)%Z.
Proof.
  refine (proj2 (proj2 (training_run_records (T := toy_torch) 60000 (fun _ => [0%Z])
                          (mkTraining (T := toy_torch) 0%nat [] [] []) _ _ _))).
  - reflexivity.
  - reflexivity.
  - discriminate.
Defined.

End Instances.
